(** * __torch_function__ dispatch while tracing

    A shallow embedding of [torch/_dynamo/variables/torch_function.py]:
    the eligibility test, the dispatch loop over the overloaded arguments,
    the attribute and method trampolines of [TensorWithTFOverrideVariable],
    and the registration of the subclass type under a mangled global name.

    Python objects are modelled by the data the code inspects; the tracer,
    the variable builders and the behaviour of plain tensor variables are
    collaborators that live outside this file and are taken as the fields
    of two interfaces, [PyWorld] and [Tracer]. *)

From Stdlib Require Import Ascii.
From stdpp Require Import base decidable option list strings gmap pretty relations.

Set Default Proof Using "Type*".
Set Warnings "-register-all".

(** ** Python-level data *)

(** A class object.  Python compares classes by identity, [cls_id] is the
    value of [id(cls)] and [cls_name] the value of [cls.__name__]. *)
Record PyClass := mkPyClass { cls_name : string; cls_id : N }.

#[global] Instance PyClass_eq_dec : EqDecision PyClass.
Proof. solve_decision. Defined.

(** Any other object (a function, a descriptor, a method wrapper), known by
    its identity. *)
Record PyObj := mkPyObj { obj_id : N }.

#[global] Instance PyObj_eq_dec : EqDecision PyObj.
Proof. solve_decision. Defined.

(** The constants a [ConstantVariable] can hold. *)
Inductive PyConst :=
| PyNotImplemented
| PyNone
| PyBool (b : bool)
| PyInt (z : Z)
| PyStr (s : string).

(** What a name of the global scope is bound to. *)
Inductive PyGlobal :=
| GClass (c : PyClass)
| GObj (o : PyObj).

(** [..source]: where a traced value comes from. *)
Inductive Source :=
| LocalSource (local_name : string)
| GlobalSource (global_name : string)
| AttrSource (base : Source) (member : string).

(** ** Variable trackers *)

(** The variable wrapping the [__torch_function__] implementation. *)
Record FunctionVar := mkFunctionVar {
  fn_value : PyObj;
  fn_source : option Source
}.

(** A plain [TensorVariable]: the fields [from_tensor_var] copies, the rest
    of the tensor's description being [proxy]. *)
Record TensorVar := mkTensorVar {
  tv_class_type : PyClass;
  tv_source : option Source;
  tv_proxy : N
}.

(** [TensorWithTFOverrideVariable]: a [TensorVariable] with the subclass in
    [class_type] and the extra field [torch_function_fn]. *)
Record TFOverride := mkTFOverride {
  class_type : PyClass;
  torch_function_fn : FunctionVar;
  source : option Source;
  proxy : N
}.

Inductive VariableTracker :=
| ConstantVariable (value : PyConst)
| TupleVariable (items : list VariableTracker)
| UserDefinedClassVariable (value : PyClass) (cls_source : option Source)
| UserFunctionVariable (f : FunctionVar)
| TensorVariable (t : TensorVar)
| TensorWithTFOverrideVariable (v : TFOverride)
| BuiltVariable (o : PyObj) (built_from : option Source)
| OtherVariable (tag : N).

(** [isinstance(arg, TensorWithTFOverrideVariable)], with the instance. *)
Definition as_tf_override (arg : VariableTracker) : option TFOverride :=
  match arg with
  | TensorWithTFOverrideVariable v => Some v
  | _ => None
  end.

Definition is_tf_override (arg : VariableTracker) : bool :=
  bool_decide (is_Some (as_tf_override arg)).

(** [isinstance(res, ConstantVariable) and res.value is NotImplemented] *)
Definition is_NotImplemented (res : VariableTracker) : bool :=
  match res with
  | ConstantVariable PyNotImplemented => true
  | _ => false
  end.

(** Keyword arguments: a [dict] with string keys, in insertion order. *)
Abbreviation Kwargs := (list (string * VariableTracker)).

(** ** Exceptions *)

(** The four places that call [unimplemented], with the data their message
    is formatted from. *)
Inductive UnsupportedMsg :=
| AllNotImplemented (fn : VariableTracker) (args : list VariableTracker)
    (kwargs : Kwargs)
| AccessNotSupported (name : string)
| AccessOverridden (name : string)
| CallOverridden (name : string).

Inductive PyExn :=
| Unsupported (msg : UnsupportedMsg)
| AttributeError (name : string)
| AssertionError (msg : string)
| OtherExn (tag : N).

(** The three error kinds of the specification. *)
Definition UnsupportedDispatch fn args kwargs : PyExn :=
  Unsupported (AllNotImplemented fn args kwargs).
Definition UnsupportedAttribute name : PyExn :=
  Unsupported (AccessNotSupported name).
Definition is_OverriddenAttributeUnsupported (e : PyExn) : bool :=
  match e with
  | Unsupported (AccessOverridden _) | Unsupported (CallOverridden _) => true
  | _ => false
  end.

Inductive Outcome (A : Type) :=
| Return (a : A)
| Raise (e : PyExn).
Arguments Return {A} a.
Arguments Raise {A} e.

(** ** The tracer state *)

(** [tx.output]: the feature flag and the global scope. *)
Record OutputGraph := mkOutputGraph {
  torch_function_enabled : bool;
  global_scope : gmap string PyGlobal
}.

(** One call of [tx.inline_user_function_return]. *)
Record InlineCall := mkInlineCall {
  callee : VariableTracker;
  call_args : list VariableTracker;
  call_kwargs : Kwargs
}.

(** [tx]: the output graph, and a ghost log of the user functions inlined
    so far, oldest first. *)
Record InstructionTranslator := mkTx {
  output : OutputGraph;
  inlined : list InlineCall
}.

(** Computations that read and update [tx] and may raise. *)
Definition M (A : Type) : Type :=
  InstructionTranslator → Outcome A * InstructionTranslator.

Definition ret {A} (a : A) : M A := λ tx, (Return a, tx).
Definition raise {A} (e : PyExn) : M A := λ tx, (Raise e, tx).
Definition bind {A B} (m : M A) (k : A → M B) : M B :=
  λ tx, match m tx with
        | (Return a, tx') => k a tx'
        | (Raise e, tx') => (Raise e, tx')
        end.
Definition get_tx : M InstructionTranslator := λ tx, (Return tx, tx).

Notation "'let*' x ':=' m 'in' k" := (bind m (λ x, k))
  (at level 10, x name, m at level 100, k at level 200, only parsing).

(** [..exc.unimplemented] *)
Definition unimplemented {A} (msg : UnsupportedMsg) : M A :=
  raise (Unsupported msg).

(** ** The collaborators *)

(** What the Python runtime knows: the class hierarchy, the attributes of
    [torch.Tensor], static attribute lookup and the [__get__] entry point of
    a descriptor.  [None] stands for an [AttributeError]. *)
Class PyWorld := {
  issubclass : PyClass → PyClass → bool;
  torch_Tensor : PyClass;
  getattr_Tensor : string → option PyObj;
  getattr_static : PyClass → string → option PyObj;
  dunder_get : PyObj → option PyObj
}.

(** The tracer around this module.  [banned_attrs] is the module constant
    computed from [get_default_nowrap_functions]; [user_function] is what
    inlining a call does to the output graph and returns; the builders wrap
    a Python object; the last field is the behaviour of a plain tensor
    variable, reached through [super().var_getattr]. *)
Class Tracer := {
  banned_attrs : list string;
  user_function :
    InlineCall → OutputGraph → Outcome VariableTracker * OutputGraph;
  VariableBuilder :
    Source → PyObj → OutputGraph → Outcome VariableTracker * OutputGraph;
  SourcelessBuilder :
    PyObj → OutputGraph → Outcome VariableTracker * OutputGraph;
  TensorVariable_var_getattr : TFOverride → string → M VariableTracker
}.

(** A collaborator that only touches the output graph. *)
Definition on_output {A} (f : OutputGraph → Outcome A * OutputGraph) : M A :=
  λ tx, let '(r, out) := f (output tx) in (r, mkTx out (inlined tx)).

(** [tx.inline_user_function_return(fn, args, kwargs)]: the call is logged
    and the user function runs. *)
Definition inline_user_function_return `{Tracer}
    (fn : VariableTracker) (args : list VariableTracker) (kwargs : Kwargs)
    : M VariableTracker :=
  λ tx, let c := mkInlineCall fn args kwargs in
        let '(r, out) := user_function c (output tx) in
        (r, mkTx out (inlined tx ++ [c])).

(** ** Flattening *)

(** A Python container of variable trackers, as [pytree] sees it. *)
Inductive PyTree :=
| Leaf (v : VariableTracker)
| PyList (children : list PyTree)
| PyTuple (children : list PyTree)
| PyDict (entries : list (string * PyTree)).

(** Modelled from the spec: [torch.utils._pytree.tree_leaves], which is not
    part of the sources at hand.  Arguments are recursively decomposed
    through ordered-sequence and mapping containers, at any nesting depth,
    into a flat ordered list of leaves. *)
Fixpoint tree_leaves (t : PyTree) : list VariableTracker :=
  match t with
  | Leaf v => [v]
  | PyList children => concat (map tree_leaves children)
  | PyTuple children => concat (map tree_leaves children)
  | PyDict entries => concat (map (λ kv, tree_leaves (snd kv)) entries)
  end.

(** The positional arguments are a list of variable trackers and the keyword
    arguments a dict of them. *)
Definition args_tree (args : list VariableTracker) : PyTree :=
  PyList (map Leaf args).
Definition kwargs_tree (kwargs : Kwargs) : PyTree :=
  PyDict (map (λ kv, (fst kv, Leaf (snd kv))) kwargs).

(** [pytree.tree_leaves(args) + pytree.tree_leaves(kwargs)] *)
Definition all_leaves (args : list VariableTracker) (kwargs : Kwargs)
    : list VariableTracker :=
  tree_leaves (args_tree args) ++ tree_leaves (kwargs_tree kwargs).

(** [[arg for arg in all_args if isinstance(arg, TensorWithTFOverrideVariable)]] *)
Definition overriding_leaves (args : list VariableTracker) (kwargs : Kwargs)
    : list TFOverride :=
  omap as_tf_override (all_leaves args kwargs).

(** ** The order of the overloaded arguments *)

Definition strict_subclass `{PyWorld} (b a : PyClass) : bool :=
  issubclass b a && negb (bool_decide (b = a)).

(** The class hierarchy is a partial order, as Python's [issubclass] is on
    classes that do not customise it. *)
Record wf_hierarchy `{PyWorld} : Prop := {
  issubclass_refl : ∀ a, issubclass a a = true;
  issubclass_trans : ∀ a b c,
    issubclass a b = true → issubclass b c = true → issubclass a c = true;
  issubclass_antisym : ∀ a b,
    issubclass a b = true → issubclass b a = true → a = b
}.

Section overload_order.
Context `{PyWorld} {X : Type} (get_type_fn : X → PyClass).

(** Step 1: walk the arguments left to right and append each one to the
    working list unless its type is already there. *)
Definition fo_step (working : list X) (x : X) : list X :=
  if bool_decide (get_type_fn x ∈ get_type_fn <$> working)
  then working else working ++ [x].

Definition first_occurrence (relevant_args : list X) : list X :=
  foldl fo_step [] relevant_args.

(** Step 2, one move: [b] stands after [a] and its type is a strict
    subclass of the type of [a]; [b] is moved immediately before [a]. *)
Inductive precedence_move : list X → list X → Prop :=
| move_before l1 a l2 b l3 :
    strict_subclass (get_type_fn b) (get_type_fn a) = true →
    precedence_move (l1 ++ a :: l2 ++ b :: l3) (l1 ++ b :: a :: l2 ++ l3).

(** The first element of [rest] whose type is a strict subclass of the
    type of [a], with what stands before and after it. *)
Fixpoint split_at_subclass (a : X) (rest : list X)
    : option (list X * X * list X) :=
  match rest with
  | [] => None
  | b :: rest' =>
      if strict_subclass (get_type_fn b) (get_type_fn a)
      then Some ([], b, rest')
      else match split_at_subclass a rest' with
           | Some (l2, b', l3) => Some (b :: l2, b', l3)
           | None => None
           end
  end.

(** Moves at the head of the list, until nothing after the head is a
    strict subclass of it. *)
Fixpoint settle_head (fuel : nat) (a : X) (rest : list X) : X * list X :=
  match fuel with
  | 0 => (a, rest)
  | S fuel' =>
      match split_at_subclass a rest with
      | None => (a, rest)
      | Some (l2, b, l3) => settle_head fuel' b (a :: l2 ++ l3)
      end
  end.

(** The moves are made leftmost pair first: the head is settled, then the
    rest of the list. *)
Fixpoint precedence_pass (fuel : nat) (l : list X) : list X :=
  match fuel, l with
  | S fuel', a :: rest =>
      let '(h, r) := settle_head (length rest) a rest in
      h :: precedence_pass fuel' r
  | _, _ => l
  end.

Definition subclass_precedence (l : list X) : list X :=
  precedence_pass (length l) l.

(** Modelled from the spec: [torch.overrides._get_overloaded_args], which
    is not part of the sources at hand.  The arguments are deduplicated by
    type in first-occurrence order, then the subclass-precedence moves are
    applied as a pass of their own until none is possible. *)
Definition _get_overloaded_args (relevant_args : list X) : list X :=
  subclass_precedence (first_occurrence relevant_args).

(** No move is possible. *)
Definition precedence_fixed (l : list X) : Prop :=
  ∀ l', ¬ precedence_move l l'.

(** [x] stands before [y] in [l]. *)
Fixpoint before (x y : X) (l : list X) : Prop :=
  match l with
  | [] => False
  | c :: l' => (c = x ∧ y ∈ l') ∨ before x y l'
  end.

(** The type of [y] is a strict subclass of the type of [x], or of the type
    of an element that stands before [x] in [l0]. *)
Definition ancestor_upto (l0 : list X) (x y : X) : Prop :=
  ∃ w, (w = x ∨ before w x l0) ∧
       strict_subclass (get_type_fn y) (get_type_fn w) = true.
(** Nothing that stands after an element is a strict subclass of it. *)
Fixpoint no_inversion (l : list X) : Prop :=
  match l with
  | [] => True
  | a :: rest =>
      Forall (λ b, strict_subclass (get_type_fn b) (get_type_fn a) = false) rest ∧
      no_inversion rest
  end.

End overload_order.

(** ** The module's functions *)

Section torch_function.
Context `{PyWorld} `{Tracer}.

(** [_is_attr_overidden(tx, var, name)] *)
Definition _is_attr_overidden (var : TFOverride) (name : string) : bool :=
  match getattr_static (class_type var) name with
  | None => false
  | Some attr_val =>
      match getattr_Tensor name with
      | None => false
      | Some base_val => false || bool_decide (attr_val ≠ base_val)
      end
  end.

(** [call_torch_function(tx, torch_function_type, torch_function_var, fn,
    types, args, kwargs)] *)
Definition call_torch_function
    (torch_function_type : VariableTracker) (torch_function_var : FunctionVar)
    (fn types : VariableTracker) (args : list VariableTracker)
    (kwargs : Kwargs) : M VariableTracker :=
  let tf_args := [torch_function_type; fn; types; TupleVariable args] in
  inline_user_function_return
    (UserFunctionVariable torch_function_var) tf_args kwargs.

(** [can_dispatch_torch_function(tx, args, kwargs)] *)
Definition can_dispatch_torch_function (tx : InstructionTranslator)
    (args : list VariableTracker) (kwargs : Kwargs) : bool :=
  if torch_function_enabled (output tx)
  then existsb is_tf_override (all_leaves args kwargs)
  else false.

(** [TensorWithTFOverrideVariable.global_mangled_class_name] *)
Definition global_mangled_class_name (self : TFOverride) : string :=
  "__subclass_" +:+ cls_name (class_type self) +:+ "_"
    +:+ pretty (cls_id (class_type self)).

(** [TensorWithTFOverrideVariable.python_type] *)
Definition python_type (self : TFOverride) : PyClass := class_type self.

(** [TensorWithTFOverrideVariable.subclass_type_var] *)
Definition subclass_type_var (self : TFOverride) : VariableTracker :=
  UserDefinedClassVariable (class_type self)
    (Some (GlobalSource (global_mangled_class_name self))).

(** [TensorWithTFOverrideVariable.call_torch_function] *)
Definition tf_call_torch_function (self : TFOverride)
    (fn types : VariableTracker) (args : list VariableTracker)
    (kwargs : Kwargs) : M VariableTracker :=
  call_torch_function (subclass_type_var self) (torch_function_fn self)
    fn types args kwargs.

(** The [for] loop of [dispatch_torch_function], and the call of
    [unimplemented] behind it. *)
Fixpoint dispatch_loop (fn types : VariableTracker)
    (args : list VariableTracker) (kwargs : Kwargs)
    (remaining : list TFOverride) : M VariableTracker :=
  match remaining with
  | [] => unimplemented (AllNotImplemented fn args kwargs)
  | arg :: remaining' =>
      let* res := tf_call_torch_function arg fn types args kwargs in
      if negb (is_NotImplemented res) then ret res
      else dispatch_loop fn types args kwargs remaining'
  end.

(** [dispatch_torch_function(tx, fn, args, kwargs)] *)
Definition dispatch_torch_function (fn : VariableTracker)
    (args : list VariableTracker) (kwargs : Kwargs) : M VariableTracker :=
  let overloaded_args :=
    _get_overloaded_args class_type (overriding_leaves args kwargs) in
  dispatch_loop fn (TupleVariable (subclass_type_var <$> overloaded_args))
    args kwargs overloaded_args.

(** Modelled from the spec: [tx.output.install_global], which is not part
    of the sources at hand.  The registry is keyed by the synthetic name
    and the value is stored under it. *)
Definition install_global (name : string) (value : PyGlobal) : M unit :=
  λ tx, (Return tt,
         mkTx (mkOutputGraph (torch_function_enabled (output tx))
                 (<[name := value]> (global_scope (output tx))))
              (inlined tx)).

(** [TensorWithTFOverrideVariable.from_tensor_var(tx, tensor_var,
    class_type, torch_function_fn)] *)
Definition from_tensor_var (tensor_var : TensorVar) (class_type : PyClass)
    (torch_function_fn : FunctionVar) : M TFOverride :=
  if bool_decide (tv_class_type tensor_var = torch_Tensor) then
    let var := mkTFOverride class_type torch_function_fn
                 (tv_source tensor_var) (tv_proxy tensor_var) in
    let* tx := get_tx in
    let* _ :=
      match global_scope (output tx) !! global_mangled_class_name var with
      | None =>
          install_global (global_mangled_class_name var) (GClass class_type)
      | Some _ => ret tt
      end in
    ret var
  else
    raise (AssertionError
      "invalid class type in TensorWithTFOverrideVariable.from_tensor_var").

(** An attribute lookup that raises [AttributeError] when it fails. *)
Definition lookup_attr (found : option PyObj) (name : string) : M PyObj :=
  match found with
  | Some o => ret o
  | None => raise (AttributeError name)
  end.

(** The function handed over by [var_getattr]: the [__get__] entry point of
    the attribute, looked up statically on the declared type when the value
    has a source and on [torch.Tensor] otherwise. *)
Definition build_get_fn (self : TFOverride) (name : string)
    : M VariableTracker :=
  match source self with
  | Some src =>
      let* attr := lookup_attr (getattr_static (python_type self) name) name in
      let* getter := lookup_attr (dunder_get attr) "__get__" in
      on_output
        (VariableBuilder
           (AttrSource (AttrSource (AttrSource src "__class__") name) "__get__")
           getter)
  | None =>
      let* attr := lookup_attr (getattr_Tensor name) name in
      let* getter := lookup_attr (dunder_get attr) "__get__" in
      on_output (SourcelessBuilder getter)
  end.

(** The branch of [var_getattr] taken when [__torch_function__] is enabled. *)
Definition getattr_trampoline (self : TFOverride) (name : string)
    : M VariableTracker :=
  let* get_fn := build_get_fn self name in
  tf_call_torch_function self get_fn
    (TupleVariable [subclass_type_var self])
    [TensorWithTFOverrideVariable self] [].

(** [TensorWithTFOverrideVariable.var_getattr(tx, name)] *)
Definition var_getattr (self : TFOverride) (name : string)
    : M VariableTracker :=
  if bool_decide (name ∈ banned_attrs)
     || negb (bool_decide (is_Some (getattr_Tensor name)))
  then unimplemented (AccessNotSupported name)
  else if _is_attr_overidden self name
  then unimplemented (AccessOverridden name)
  else
    let* tx := get_tx in
    if torch_function_enabled (output tx)
    then getattr_trampoline self name
    else TensorVariable_var_getattr self name.

(** The function handed over by [call_method]: the method itself, looked up
    statically on the declared type when the value has a source and on
    [torch.Tensor] otherwise. *)
Definition build_func_var (self : TFOverride) (name : string)
    : M VariableTracker :=
  match source self with
  | Some src =>
      let* attr := lookup_attr (getattr_static (python_type self) name) name in
      on_output
        (VariableBuilder (AttrSource (AttrSource src "__class__") name) attr)
  | None =>
      let* attr := lookup_attr (getattr_Tensor name) name in
      on_output (SourcelessBuilder attr)
  end.

(** The end of the enabled branch of [call_method]. *)
Definition method_trampoline (self : TFOverride) (name : string)
    (args : list VariableTracker) (kwargs : Kwargs) : M VariableTracker :=
  let* func_var := build_func_var self name in
  dispatch_torch_function func_var
    (TensorWithTFOverrideVariable self :: args) kwargs.

(** [TensorWithTFOverrideVariable.call_method(tx, name, args, kwargs)].
    The last branch reads [self.tensor_variable], an attribute that neither
    [__init__] nor [from_tensor_var] sets: the read raises
    [AttributeError]. *)
Definition call_method (self : TFOverride) (name : string)
    (args : list VariableTracker) (kwargs : Kwargs) : M VariableTracker :=
  let* tx := get_tx in
  if torch_function_enabled (output tx) then
    if _is_attr_overidden self name
    then unimplemented (CallOverridden name)
    else method_trampoline self name args kwargs
  else raise (AttributeError "tensor_variable").

(** ** Vocabulary of the statements *)

(** The OverloadOrder of a call: the types of the overloaded arguments. *)
Definition overload_order (args : list VariableTracker) (kwargs : Kwargs)
    : list PyClass :=
  class_type <$>
    _get_overloaded_args class_type (overriding_leaves args kwargs).

(** The types of the overriding leaves, deduplicated in first-occurrence
    order. *)
Definition first_occurrence_types (args : list VariableTracker)
    (kwargs : Kwargs) : list PyClass :=
  class_type <$> first_occurrence class_type (overriding_leaves args kwargs).

(** Any two types of which neither is a strict subclass of the other stand
    in the OverloadOrder as they do in first-occurrence order. *)
Definition unrelated_keep_first_occurrence_order
    (args : list VariableTracker) (kwargs : Kwargs) : Prop :=
  ∀ i j T U,
    first_occurrence_types args kwargs !! i = Some T →
    first_occurrence_types args kwargs !! j = Some U →
    i < j →
    strict_subclass T U = false → strict_subclass U T = false →
    ∃ i' j', overload_order args kwargs !! i' = Some T ∧
             overload_order args kwargs !! j' = Some U ∧ i' < j'.

(** The entry that the handler of [arg] leaves in the log. *)
Definition handler_call (fn types : VariableTracker)
    (args : list VariableTracker) (kwargs : Kwargs) (arg : TFOverride)
    : InlineCall :=
  mkInlineCall (UserFunctionVariable (torch_function_fn arg))
    [subclass_type_var arg; fn; types; TupleVariable args] kwargs.

(** The handlers of [handlers], run one after the other from [tx], all
    return [NotImplemented]; the result is the state they leave. *)
Fixpoint all_decline (fn types : VariableTracker)
    (args : list VariableTracker) (kwargs : Kwargs)
    (handlers : list TFOverride) (tx : InstructionTranslator)
    : option InstructionTranslator :=
  match handlers with
  | [] => Some tx
  | arg :: handlers' =>
      match tf_call_torch_function arg fn types args kwargs tx with
      | (Return res, tx') =>
          if is_NotImplemented res
          then all_decline fn types args kwargs handlers' tx'
          else None
      | (Raise _, _) => None
      end
  end.

(** [o] wrapped by the builder that [self] calls for: the one with a source
    when [self] has one, at the end of [path], the sourceless one
    otherwise. *)
Definition wrap_object (self : TFOverride) (path : Source → Source)
    (o : PyObj) : M VariableTracker :=
  match source self with
  | Some src => on_output (VariableBuilder (path src) o)
  | None => on_output (SourcelessBuilder o)
  end.

(** The third argument of a logged handler call, the tuple of types, holds
    the declared type of [self] and nothing else. *)
Definition single_type_tuple (self : TFOverride) (c : InlineCall) : Prop :=
  call_args c !! 2 = Some (TupleVariable [subclass_type_var self]).

(** The attribute found statically on the declared type differs from the
    one stored on [torch.Tensor]. *)
Definition overridden_on_type (self : TFOverride) (name : string) : Prop :=
  ∃ attr_val base_val,
    getattr_static (class_type self) name = Some attr_val ∧
    getattr_Tensor name = Some base_val ∧ attr_val ≠ base_val.
End torch_function.

(** ** Strings *)

(** [c in s] *)
Fixpoint string_has (c : ascii) (s : string) : bool :=
  match s with
  | EmptyString => false
  | String c' s' => bool_decide (c = c') || string_has c s'
  end.

(** [s.count(c)] for a character [c] *)
Fixpoint count_char (c : ascii) (s : string) : nat :=
  match s with
  | EmptyString => 0
  | String c' s' => (if bool_decide (c' = c) then 1 else 0) + count_char c s'
  end.

(** [s.split(sep)] for a separator of one character: every separator cuts,
    and empty pieces are kept. *)
Fixpoint split (sep : ascii) (s : string) : list string :=
  match s with
  | EmptyString => [EmptyString]
  | String c s' =>
      if bool_decide (c = sep) then EmptyString :: split sep s'
      else match split sep s' with
           | piece :: pieces => String c piece :: pieces
           | [] => [String c EmptyString]
           end
  end.

(** [sep.join(pieces)] *)
Fixpoint join (sep : string) (pieces : list string) : string :=
  match pieces with
  | [] => EmptyString
  | [piece] => piece
  | piece :: pieces' => piece +:+ sep +:+ join sep pieces'
  end.

(** [c.isspace()], for the code points below 256: tab to carriage return,
    the four separators from 28 on, the space, NEL and the no-break space. *)
Definition is_space (c : ascii) : bool :=
  let n := N_of_ascii c in
  ((9 <=? n) && (n <=? 13) || (28 <=? n) && (n <=? 32)
   || (n =? 133) || (n =? 160))%N.

(** [s.lstrip()], [s.rstrip()] and [s.strip()] *)
Fixpoint lstrip (s : string) : string :=
  match s with
  | EmptyString => EmptyString
  | String c s' => if is_space c then lstrip s' else s
  end.

Fixpoint rstrip (s : string) : string :=
  match s with
  | EmptyString => EmptyString
  | String c s' =>
      match rstrip s' with
      | EmptyString => if is_space c then EmptyString else String c EmptyString
      | r => String c r
      end
  end.

Definition strip (s : string) : string := rstrip (lstrip s).

(** ** Dictionaries in insertion order *)

(** [d[k] = v]: a key that is there keeps its place, a new one goes last. *)
Fixpoint dict_set {K V} `{EqDecision K} (k : K) (v : V) (d : list (K * V))
    : list (K * V) :=
  match d with
  | [] => [(k, v)]
  | (k', v') :: d' =>
      if decide (k' = k) then (k', v) :: d' else (k', v') :: dict_set k v d'
  end.

(** [d.get(k)] *)
Fixpoint dict_get {K V} `{EqDecision K} (k : K) (d : list (K * V))
    : option V :=
  match d with
  | [] => None
  | (k', v') :: d' => if decide (k' = k) then Some v' else dict_get k d'
  end.

(** ** [torch/_inductor/codegen/cpp_template_kernel.py] *)

(** A [sympy] symbol: [str(s)] is its name. *)
Record Symbol := mkSymbol { sym_name : string; sym_id : N }.

#[global] Instance Symbol_eq_dec : EqDecision Symbol.
Proof. solve_decision. Defined.

(** A size or a stride, known by its [free_symbols]. *)
Record SymExpr := mkSymExpr { free_symbols : list Symbol }.

Inductive Dtype :=
| float32
| float64
| float16
| bfloat16
| int8
| int16
| int32
| int64
| uint8
| bool_dtype
| other_dtype (tag : N).

(** A [Buffer], by what its getters return. *)
Record Buffer := mkBuffer {
  get_name : string;
  get_dtype : Dtype;
  get_size : list SymExpr;
  get_stride : list SymExpr
}.

(** [self.args]: the three dictionaries that [def_kernel] fills. *)
Record KernelArgs := mkKernelArgs {
  input_buffers : list (string * string);
  output_buffers : list (string * string);
  sizevars : list (Symbol * string)
}.

Inductive KernelExn :=
| NamesAssertionError (all_names : list (option string)) (names_str : string)
| IndexError
| TypeError
| NotImplementedError (d : Dtype).

Inductive KOutcome (A : Type) :=
| KReturn (a : A)
| KRaise (e : KernelExn).
Arguments KReturn {A} a.
Arguments KRaise {A} e.

(** What the kernel relies on: [sorted] on a set of symbols, given as the
    symbols collected, and [KernelArgs.cpp_argdefs].  [sorted] compares the
    symbols with [<], which [sympy] answers with a relation whose truth
    value cannot be taken: [None] stands for the [TypeError] raised then. *)
Class KernelEnv := {
  sorted_symbols : list Symbol → option (list Symbol);
  cpp_argdefs : KernelArgs → list string * list string * list string
}.

(** When [sorted] returns, it returns the elements of the set. *)
Definition sorted_symbols_law `{KernelEnv} : Prop :=
  ∀ collected sorted s,
    sorted_symbols collected = Some sorted → (s ∈ sorted ↔ s ∈ collected).

(** The first loop of [def_kernel], from index [i] on. *)
Fixpoint bind_inputs (names : list string) (i : nat)
    (input_names : list (option string)) (d : list (string * string))
    : KOutcome unit * list (string * string) :=
  match input_names with
  | [] => (KReturn tt, d)
  | None :: rest => bind_inputs names (S i) rest d
  | Some input_name :: rest =>
      match names !! i with
      | Some name => bind_inputs names (S i) rest
                       (dict_set input_name (strip name) d)
      | None => (KRaise IndexError, d)
      end
  end.

(** The second loop of [def_kernel], from index [i] on. *)
Fixpoint bind_outputs (names : list string) (offset i : nat)
    (output_names : list string) (d : list (string * string))
    : KOutcome unit * list (string * string) :=
  match output_names with
  | [] => (KReturn tt, d)
  | output_name :: rest =>
      match names !! (i + offset) with
      | Some name => bind_outputs names offset (S i) rest
                       (dict_set output_name (strip name) d)
      | None => (KRaise IndexError, d)
      end
  end.

(** The free symbols of the sizes and strides of the buffers, in the order
    of the comprehension. *)
Definition collect_symbols (buffers : list Buffer) : list Symbol :=
  b ← buffers; sym ← get_size b ++ get_stride b; free_symbols sym.

(** The third loop of [def_kernel]. *)
Definition bind_sizevars (symbols : list Symbol) (d : list (Symbol * string))
    : list (Symbol * string) :=
  foldl (λ d sizevar, dict_set sizevar ("k" +:+ sym_name sizevar) d) d symbols.

(** [CppTemplateKernel.def_kernel(inputs, outputs, names_str)] *)
Definition def_kernel `{KernelEnv} (kernel_name : string)
    (inputs : list (option Buffer)) (outputs : list Buffer)
    (names_str : string) (args : KernelArgs) : KOutcome string * KernelArgs :=
  let input_names := fmap (M:=option) get_name <$> inputs in
  let output_names := get_name <$> outputs in
  let all_names := input_names ++ (Some <$> output_names) in
  if bool_decide (length all_names = length (split "," names_str)) then
    let names := split "," names_str in
    match bind_inputs names 0 input_names (input_buffers args) with
    | (KRaise e, ins) =>
        (KRaise e, mkKernelArgs ins (output_buffers args) (sizevars args))
    | (KReturn _, ins) =>
        match bind_outputs names (length input_names) 0 output_names
                (output_buffers args) with
        | (KRaise e, outs) => (KRaise e, mkKernelArgs ins outs (sizevars args))
        | (KReturn _, outs) =>
            let inputs_not_none := omap id inputs in
            let unique_sizevars :=
              collect_symbols inputs_not_none ++ collect_symbols outputs in
            match sorted_symbols unique_sizevars with
            | None => (KRaise TypeError, mkKernelArgs ins outs (sizevars args))
            | Some sorted =>
                let args' :=
                  mkKernelArgs ins outs
                    (bind_sizevars sorted (sizevars args)) in
                (KReturn ("void " +:+ kernel_name +:+ "("
                          +:+ join ", " (cpp_argdefs args').1.1 +:+ ")"),
                 args')
            end
        end
    end
  else (KRaise (NamesAssertionError all_names names_str), args).

(** [CppTemplateKernel.dtype(node)] *)
Definition dtype (node : Buffer) : KOutcome string :=
  match get_dtype node with
  | float32 => KReturn "float"
  | bfloat16 => KReturn "float"
  | float16 => KReturn "float"
  | d => KRaise (NotImplementedError d)
  end.

(** [CppTemplateKernel.acc_dtype(node)] *)
Definition acc_dtype (node : Buffer) : KOutcome string :=
  match get_dtype node with
  | float32 => KReturn "float"
  | bfloat16 => KReturn "float"
  | float16 => KReturn "float"
  | d => KRaise (NotImplementedError d)
  end.

(** A [CppTemplateCaller], by the two fields that [hash_key] reads:
    [self.category] and [self.bmreq.hash_key]. *)
Record CppTemplateCaller := mkCppTemplateCaller {
  category : string;
  bmreq_hash_key : string
}.

(** [CppTemplateCaller.hash_key()] *)
Definition hash_key (self : CppTemplateCaller) : string :=
  join "-" [category self; bmreq_hash_key self].

(** ** A small world to run the functions in *)

Abbreviation TF := TensorWithTFOverrideVariable.

(** [B] derives from [A]; [X] is related to neither. *)
Definition ex_Tensor : PyClass := mkPyClass "Tensor" 1.
Definition ex_A : PyClass := mkPyClass "A" 10.
Definition ex_B : PyClass := mkPyClass "B" 11.
Definition ex_X : PyClass := mkPyClass "X" 12.

Definition ex_issubclass (b a : PyClass) : bool :=
  bool_decide (b = a) || (bool_decide (b = ex_B) && bool_decide (a = ex_A)).

(** [torch.Tensor] has [add], [grad] and [shape]. *)
Definition ex_getattr_Tensor (name : string) : option PyObj :=
  if bool_decide (name = "add") then Some (mkPyObj 100)
  else if bool_decide (name = "grad") then Some (mkPyObj 101)
  else if bool_decide (name = "shape") then Some (mkPyObj 102)
  else None.

(** [B] overrides [add] and [grad], and [X] has an attribute [custom] of
    its own. *)
Definition ex_getattr_static (c : PyClass) (name : string) : option PyObj :=
  if bool_decide (c = ex_B ∧ name = "add") then Some (mkPyObj 200)
  else if bool_decide (c = ex_B ∧ name = "grad") then Some (mkPyObj 201)
  else if bool_decide (c = ex_X ∧ name = "custom") then Some (mkPyObj 300)
  else ex_getattr_Tensor name.

Definition ex_world : PyWorld := {|
  issubclass := ex_issubclass;
  torch_Tensor := ex_Tensor;
  getattr_Tensor := ex_getattr_Tensor;
  getattr_static := ex_getattr_static;
  dunder_get := λ o, Some (mkPyObj (obj_id o + 1000))
|}.

(** The same world, where the object stored as [shape] is no descriptor:
    it has no [__get__]. *)
Definition ex_world_plain_shape : PyWorld := {|
  issubclass := ex_issubclass;
  torch_Tensor := ex_Tensor;
  getattr_Tensor := ex_getattr_Tensor;
  getattr_static := ex_getattr_static;
  dunder_get := λ o, if bool_decide (obj_id o = 102%N) then None
                     else Some (mkPyObj (obj_id o + 1000))
|}.

(** The handler with identity 1 declines every call, any other handler
    answers 7. *)
Definition ex_user_function (c : InlineCall) (out : OutputGraph)
    : Outcome VariableTracker * OutputGraph :=
  match callee c with
  | UserFunctionVariable f =>
      if bool_decide (obj_id (fn_value f) = 1%N)
      then (Return (ConstantVariable PyNotImplemented), out)
      else (Return (ConstantVariable (PyInt 7)), out)
  | _ => (Raise (OtherExn 0), out)
  end.

Definition ex_tracer : Tracer := {|
  banned_attrs := ["_base"; "grad"; "_grad"];
  user_function := ex_user_function;
  VariableBuilder := λ src o out, (Return (BuiltVariable o (Some src)), out);
  SourcelessBuilder := λ o out, (Return (BuiltVariable o None), out);
  TensorVariable_var_getattr := λ _ _, ret (OtherVariable 1)
|}.

Definition ex_declining : FunctionVar := mkFunctionVar (mkPyObj 1) None.
Definition ex_answering : FunctionVar := mkFunctionVar (mkPyObj 2) None.

Definition ex_a : TFOverride := mkTFOverride ex_A ex_declining None 0.
Definition ex_a' : TFOverride := mkTFOverride ex_A ex_declining None 1.
Definition ex_b : TFOverride := mkTFOverride ex_B ex_answering None 2.
Definition ex_x : TFOverride := mkTFOverride ex_X ex_answering None 3.

(** A fourth class, related to none of the others. *)
Definition ex_Y : PyClass := mkPyClass "Y" 13.
Definition ex_y : TFOverride := mkTFOverride ex_Y ex_answering None 4.

Definition ex_tx (enabled : bool) : InstructionTranslator :=
  mkTx (mkOutputGraph enabled ∅) [].

(** A kernel environment where [sorted] returns a set of one symbol at
    most as it is and raises as soon as two symbols are to be compared, and
    where one pointer is declared for each buffer. *)
Definition ex_kernel_env : KernelEnv := {|
  sorted_symbols := λ collected,
    match remove_dups collected with
    | [] => Some []
    | [s] => Some [s]
    | _ => None
    end;
  cpp_argdefs := λ args,
    ((λ kv, "float* " +:+ kv.2) <$> (input_buffers args ++ output_buffers args),
     [], [])
|}.

Definition ex_s0 : Symbol := mkSymbol "s0" 0.
Definition ex_s1 : Symbol := mkSymbol "s1" 1.

(** Three buffers whose sizes and strides hold the one symbol [s0], and a
    fourth that holds [s1] as well. *)
Definition ex_buf_x : Buffer :=
  mkBuffer "arg0" float32
    [mkSymExpr [ex_s0]; mkSymExpr [ex_s0]] [mkSymExpr [ex_s0]; mkSymExpr []].
Definition ex_buf_w : Buffer :=
  mkBuffer "arg1" bfloat16 [mkSymExpr [ex_s0]] [mkSymExpr []].
Definition ex_buf_y : Buffer :=
  mkBuffer "buf0" int32 [mkSymExpr [ex_s0]] [mkSymExpr []].
Definition ex_buf_z : Buffer :=
  mkBuffer "buf1" float32
    [mkSymExpr [ex_s0]; mkSymExpr [ex_s1]] [mkSymExpr [ex_s1]; mkSymExpr []].

Definition ex_kernel_args : KernelArgs := mkKernelArgs [] [] [].

(** * Facts about the order of the overloaded arguments *)

Section overload_order_facts.
Context `{PyWorld} {X : Type} (ty : X → PyClass).

Lemma strict_subclass_spec b a :
  strict_subclass b a = true ↔ issubclass b a = true ∧ b ≠ a.
Proof.
  unfold strict_subclass.
  rewrite andb_true_iff, negb_true_iff, bool_decide_eq_false. tauto.
Qed.

Lemma strict_subclass_irrefl a : strict_subclass a a = false.
Proof.
  apply not_true_is_false. rewrite strict_subclass_spec. tauto.
Qed.

Lemma strict_subclass_asym (wf : wf_hierarchy) b a :
  strict_subclass b a = true → strict_subclass a b = false.
Proof.
  rewrite strict_subclass_spec. intros [Hba Hne].
  apply not_true_is_false. rewrite strict_subclass_spec. intros [Hab _].
  apply Hne. by apply (issubclass_antisym wf).
Qed.

Lemma strict_subclass_trans (wf : wf_hierarchy) c b a :
  strict_subclass c b = true → strict_subclass b a = true →
  strict_subclass c a = true.
Proof.
  rewrite !strict_subclass_spec. intros [Hcb Hne1] [Hba Hne2]. split.
  - by apply (issubclass_trans wf) with b.
  - intros ->. apply Hne2. by apply (issubclass_antisym wf).
Qed.

(** ** Step 1 *)

Lemma fo_foldl_NoDup l : ∀ working,
  NoDup (ty <$> working) → NoDup (ty <$> foldl (fo_step ty) working l).
Proof.
  induction l as [|x l IH]; intros working Hnd; simpl; [done|].
  apply IH. unfold fo_step. case_bool_decide as Hin; [done|].
  rewrite fmap_app. simpl. apply NoDup_app. split_and!; [done| |].
  - intros t Ht. rewrite list_elem_of_singleton. by intros ->.
  - apply NoDup_singleton.
Qed.

Lemma fo_foldl_elem_of l : ∀ working x,
  x ∈ foldl (fo_step ty) working l → x ∈ working ∨ x ∈ l.
Proof.
  induction l as [|y l IH]; intros working x Hx; simpl in *; [by left|].
  apply IH in Hx as [Hx|Hx]; [|right; by right].
  unfold fo_step in Hx. case_bool_decide; [by left|].
  apply elem_of_app in Hx as [Hx|Hx]; [by left|].
  apply list_elem_of_singleton in Hx as ->. right; by left.
Qed.

Lemma fo_foldl_length_le l : ∀ working,
  length (foldl (fo_step ty) working l) ≤ length working + length l.
Proof.
  induction l as [|x l IH]; intros working; simpl; [lia|].
  etrans; [apply IH|]. unfold fo_step. case_bool_decide; [lia|].
  rewrite length_app. simpl. lia.
Qed.

Lemma first_occurrence_NoDup l : NoDup (ty <$> first_occurrence ty l).
Proof. apply fo_foldl_NoDup. constructor. Qed.

Lemma first_occurrence_elem_of l x : x ∈ first_occurrence ty l → x ∈ l.
Proof.
  intros Hx.
  apply fo_foldl_elem_of in Hx as [Hx|Hx]; [|done]. by apply elem_of_nil in Hx.
Qed.

(** ** Step 2 *)

Lemma split_at_subclass_None a rest :
  split_at_subclass ty a rest = None ↔
  Forall (λ b, strict_subclass (ty b) (ty a) = false) rest.
Proof.
  induction rest as [|b rest IH]; simpl.
  - split; [constructor|done].
  - destruct (strict_subclass (ty b) (ty a)) eqn:Hb.
    + split; [done|]. intros Hf. apply Forall_cons in Hf as [Hf _]. congruence.
    + destruct (split_at_subclass ty a rest) as [[[l2 b'] l3]|].
      * split; [done|]. intros Hf. apply Forall_cons in Hf as [_ Hf].
        by apply IH in Hf.
      * split; [|done]. intros _. constructor; [done|]. by apply IH.
Qed.

Lemma split_at_subclass_Some a rest l2 b l3 :
  split_at_subclass ty a rest = Some (l2, b, l3) →
  rest = l2 ++ b :: l3 ∧ strict_subclass (ty b) (ty a) = true.
Proof.
  revert l2. induction rest as [|c rest IH]; intros l2; simpl; [done|].
  destruct (strict_subclass (ty c) (ty a)) eqn:Hc.
  - intros [= <- <- <-]. done.
  - destruct (split_at_subclass ty a rest) as [[[l2' b'] l3']|]; [|done].
    intros [= <- <- <-]. destruct (IH l2' eq_refl) as [-> Hb]. done.
Qed.

Lemma precedence_move_app p l l' :
  precedence_move ty l l' → precedence_move ty (p ++ l) (p ++ l').
Proof.
  intros Hm. destruct Hm as [l1 a l2 b l3 Hs].
  rewrite !(assoc_L (++) p l1). by constructor.
Qed.

Lemma rtc_precedence_move_app p l l' :
  rtc (precedence_move ty) l l' → rtc (precedence_move ty) (p ++ l) (p ++ l').
Proof.
  induction 1 as [|l l1 l2 Hm _ IH]; [done|].
  eapply rtc_l; [|exact IH]. by apply precedence_move_app.
Qed.

Lemma precedence_move_Permutation l l' : precedence_move ty l l' → l ≡ₚ l'.
Proof.
  intros Hm. destruct Hm as [l1 a l2 b l3 _].
  apply Permutation_app_head.
  rewrite (Permutation_middle (a :: l2) l3 b). done.
Qed.

Lemma rtc_precedence_move_Permutation l l' :
  rtc (precedence_move ty) l l' → l ≡ₚ l'.
Proof.
  induction 1 as [|l l1 l2 Hm _ IH]; [done|].
  etrans; [|exact IH]. by apply precedence_move_Permutation.
Qed.

Lemma settle_head_spec fuel : ∀ a rest h r,
  settle_head ty fuel a rest = (h, r) →
  length r = length rest ∧
  rtc (precedence_move ty) (a :: rest) (h :: r).
Proof.
  induction fuel as [|fuel IH]; intros a rest h r; simpl.
  { intros [= <- <-]. done. }
  destruct (split_at_subclass ty a rest) as [[[l2 b] l3]|] eqn:Hsplit.
  - intros Hs. apply split_at_subclass_Some in Hsplit as [-> Hb].
    apply IH in Hs as [Hlen Hrtc]. split.
    + rewrite Hlen. simpl. rewrite !length_app. simpl. lia.
    + eapply rtc_l; [|exact Hrtc]. by apply (move_before ty [] a l2 b l3).
  - intros [= <- <-]. done.
Qed.

Lemma settle_head_settled (wf : wf_hierarchy) fuel : ∀ a rest h r,
  length (filter (λ b, strict_subclass (ty b) (ty a) = true) rest) ≤ fuel →
  settle_head ty fuel a rest = (h, r) →
  Forall (λ b, strict_subclass (ty b) (ty h) = false) r.
Proof.
  induction fuel as [|fuel IH]; intros a rest h r Hcnt; simpl.
  { intros [= <- <-]. apply Forall_forall. intros b Hb.
    apply not_true_is_false. intros Hs.
    assert (b ∈ filter (λ b, strict_subclass (ty b) (ty a) = true) rest) as Hin
      by by apply list_elem_of_filter.
    destruct (filter _ rest); [by apply elem_of_nil in Hin|simpl in Hcnt; lia]. }
  destruct (split_at_subclass ty a rest) as [[[l2 b] l3]|] eqn:Hsplit.
  - apply split_at_subclass_Some in Hsplit as [-> Hb].
    apply IH. revert Hcnt.
    rewrite filter_cons, (strict_subclass_asym wf _ _ Hb).
    rewrite decide_False by done.
    rewrite !filter_app, filter_cons, decide_True by done.
    rewrite !length_app. simpl.
    assert (∀ l, length (filter (λ x, strict_subclass (ty x) (ty b) = true) l)
               ≤ length (filter (λ x, strict_subclass (ty x) (ty a) = true) l))
      as Hle.
    { intros l. induction l as [|x l IHl]; [done|].
      rewrite !filter_cons.
      destruct (strict_subclass (ty x) (ty b)) eqn:Hx.
      - rewrite (strict_subclass_trans wf _ _ _ Hx Hb).
        rewrite !decide_True by done. simpl. lia.
      - rewrite decide_False by done. case_decide; simpl; lia. }
    pose proof (Hle l2). pose proof (Hle l3). lia.
  - intros [= <- <-]. by apply split_at_subclass_None.
Qed.

Lemma precedence_pass_spec fuel : ∀ l,
  rtc (precedence_move ty) l (precedence_pass ty fuel l).
Proof.
  induction fuel as [|fuel IH]; intros [|a rest]; simpl; try done.
  destruct (settle_head ty (length rest) a rest) as [h r] eqn:Hs.
  apply settle_head_spec in Hs as [_ Hrtc].
  etrans; [exact Hrtc|]. apply (rtc_precedence_move_app [h]), IH.
Qed.

Lemma precedence_pass_no_inversion (wf : wf_hierarchy) fuel : ∀ l,
  length l ≤ fuel → no_inversion ty (precedence_pass ty fuel l).
Proof.
  induction fuel as [|fuel IH]; intros [|a rest] Hlen; simpl in *;
    try done; try lia.
  destruct (settle_head ty (length rest) a rest) as [h r] eqn:Hs.
  pose proof (settle_head_spec _ _ _ _ _ Hs) as [Hr _].
  apply (settle_head_settled wf) in Hs; [|apply length_filter].
  simpl. split; [|apply IH; lia].
  assert (r ≡ₚ precedence_pass ty fuel r) as Hp
    by apply rtc_precedence_move_Permutation, precedence_pass_spec.
  by rewrite <- Hp.
Qed.

Lemma no_inversion_app l1 l2 :
  no_inversion ty (l1 ++ l2) → no_inversion ty l2.
Proof. induction l1 as [|a l1 IH]; simpl; [done|]. intros [_ ?]. auto. Qed.

Lemma no_inversion_fixed l : no_inversion ty l → precedence_fixed ty l.
Proof.
  intros Hno l' Hm. destruct Hm as [l1 a l2 b l3 Hs].
  apply no_inversion_app in Hno. simpl in Hno. destruct Hno as [Hf _].
  rewrite Forall_app, Forall_cons in Hf. destruct Hf as (_ & Hb & _).
  congruence.
Qed.

(** In a list where no move is possible, a strict subclass stands before
    each of its ancestors. *)
Lemma precedence_fixed_lookup l i j a b :
  precedence_fixed ty l →
  l !! i = Some a → l !! j = Some b →
  strict_subclass (ty b) (ty a) = true → j < i.
Proof.
  intros Hfix Hi Hj Hs.
  destruct (decide (j < i)) as [|Hge]; [done|]. exfalso.
  assert (i ≠ j) as Hne.
  { intros ->. rewrite Hi in Hj. injection Hj as ->.
    by rewrite strict_subclass_irrefl in Hs. }
  assert (i < j) as Hlt by lia.
  destruct (list_elem_of_split_length l i a Hi) as (l1 & r & -> & Hl1).
  rewrite lookup_app_r in Hj by lia.
  destruct (j - length l1) as [|k] eqn:Hk; [lia|]. simpl in Hj.
  destruct (list_elem_of_split_length r k b Hj) as (l2 & l3 & -> & _).
  eapply Hfix. by constructor.
Qed.

Lemma subclass_precedence_moves l :
  rtc (precedence_move ty) l (subclass_precedence ty l).
Proof. apply precedence_pass_spec. Qed.

Lemma subclass_precedence_fixed (wf : wf_hierarchy) l :
  precedence_fixed ty (subclass_precedence ty l).
Proof. by apply no_inversion_fixed, precedence_pass_no_inversion. Qed.

Lemma subclass_precedence_Permutation l : l ≡ₚ subclass_precedence ty l.
Proof. apply rtc_precedence_move_Permutation, subclass_precedence_moves. Qed.

(** From a list of two elements there is one move at most. *)
Lemma precedence_move_pair a b l' :
  precedence_move ty [a; b] l' →
  l' = [b; a] ∧ strict_subclass (ty b) (ty a) = true.
Proof.
  inversion 1 as [l1 a0 l2 b0 l3 Hs Heq Hl'].
  destruct l1 as [|x [|y l1]]; simplify_eq/=.
  - destruct l2 as [|c l2]; simplify_eq/=; [done|].
    by destruct l2.
  - by destruct l2.
  - by destruct l1.
Qed.

(** Whatever the order of the moves, a pair whose second element derives
    from the first ends swapped. *)
Lemma precedence_pair_fixed (wf : wf_hierarchy) a b l' :
  strict_subclass (ty b) (ty a) = true →
  rtc (precedence_move ty) [a; b] l' → precedence_fixed ty l' →
  l' = [b; a].
Proof.
  intros Hs Hrtc Hfix. inversion Hrtc as [|? m ? Hm Hrest]; subst.
  { exfalso. eapply Hfix. by apply (move_before ty [] a [] b []). }
  apply precedence_move_pair in Hm as [-> _].
  inversion Hrest as [|? m ? Hm _]; subst; [done|].
  apply precedence_move_pair in Hm as [_ Hab].
  by rewrite (strict_subclass_asym wf _ _ Hs) in Hab.
Qed.

(** ** What the moves keep *)

Lemma before_elem_of (x y : X) l : before x y l → x ∈ l ∧ y ∈ l.
Proof.
  induction l as [|c l IH]; simpl; [done|].
  intros [[-> Hy]|Hb].
  - split; [by left|by right].
  - destruct (IH Hb). split; by right.
Qed.

Lemma before_app (x y : X) l1 l2 :
  before x y (l1 ++ l2) ↔
  before x y l1 ∨ (x ∈ l1 ∧ y ∈ l2) ∨ before x y l2.
Proof.
  induction l1 as [|c l1 IH]; simpl.
  - split; [by auto|]. intros [[]|[[Hx _]|Hb]]; [|done].
    by apply elem_of_nil in Hx.
  - rewrite IH, elem_of_app, elem_of_cons. split.
    + intros [[-> [Hy|Hy]]|[Hb|[[Hx Hy]|Hb]]]; by auto 6.
    + intros [[[-> Hy]|Hb]|[[[->|Hx] Hy]|Hb]]; by auto 6.
Qed.

Lemma before_asym (x y : X) l : NoDup l → before x y l → before y x l → False.
Proof.
  induction 1 as [|c l Hc Hnd IH]; simpl; [done|].
  intros [[-> Hy]|Hxy] [[Heq Hx]|Hyx].
  - by subst.
  - by apply before_elem_of in Hyx as [_ ?].
  - subst. by apply before_elem_of in Hxy as [_ ?].
  - by apply IH.
Qed.

Lemma before_total (x y : X) l :
  x ∈ l → y ∈ l → x ≠ y → before x y l ∨ before y x l.
Proof.
  induction l as [|c l IH]; intros Hx Hy Hne; simpl.
  { by apply elem_of_nil in Hx. }
  apply elem_of_cons in Hx as [->|Hx]; apply elem_of_cons in Hy as [->|Hy].
  - done.
  - by left; left.
  - by right; left.
  - destruct (IH Hx Hy Hne); [left|right]; by right.
Qed.

Lemma before_lookup (x y : X) l :
  before x y l ↔ ∃ i j, l !! i = Some x ∧ l !! j = Some y ∧ i < j.
Proof.
  induction l as [|c l IH]; simpl.
  { split; [done|]. by intros (i & j & Hi & _). }
  rewrite IH. split.
  - intros [[-> Hy]|(i & j & Hi & Hj & Hlt)].
    + apply list_elem_of_lookup in Hy as [j Hj].
      exists 0, (S j). split_and!; [done|done|lia].
    + exists (S i), (S j). split_and!; [done|done|lia].
  - intros (i & j & Hi & Hj & Hlt). destruct j as [|j]; [lia|].
    destruct i as [|i]; simplify_eq/=.
    + left. split; [done|]. apply list_elem_of_lookup. eauto.
    + right. exists i, j. split_and!; [done|done|lia].
Qed.

(** What a move changes: the element moved now stands before those it has
    passed. *)
Lemma before_moved (x y : X) l1 a l2 b l3 :
  before x y (l1 ++ b :: a :: l2 ++ l3) →
  before x y (l1 ++ a :: l2 ++ b :: l3) ∨ (x = b ∧ y ∈ a :: l2).
Proof.
  rewrite !before_app. simpl. rewrite !before_app. simpl.
  rewrite !elem_of_cons, !elem_of_app, !elem_of_cons.
  intros [H1|[[Hx [->|[->|[Hy|Hy]]]]|[[-> [->|[Hy|Hy]]]|[[-> [Hy|Hy]]|
          [H2|[[Hx Hy]|H3]]]]]]; by auto 12.
Qed.

(** When [y] has come to stand before [x], having stood behind it at the
    start, it derives from [x] or from an element that stood before [x]. *)
Lemma overtaking_has_ancestor (wf : wf_hierarchy) l0 l :
  NoDup l0 → rtc (precedence_move ty) l0 l →
  ∀ x y, before y x l → before x y l0 → ancestor_upto ty l0 x y.
Proof.
  intros Hnd Hrtc. revert l Hrtc.
  apply (rtc_ind_r (λ l, ∀ x y, before y x l → before x y l0 →
                         ancestor_upto ty l0 x y)).
  { intros x y Hyx Hxy. by destruct (before_asym x y l0). }
  intros l l' Hrtc Hmove IH x y Hyx Hxy.
  pose proof (rtc_precedence_move_Permutation _ _ Hrtc) as Hperm.
  destruct Hmove as [l1 a l2 b l3 Hs].
  apply before_moved in Hyx as [Hyx|[-> Hx]]; [by apply IH|].
  apply elem_of_cons in Hx as [->|Hx]; [exists a; by auto|].
  destruct (decide (ty a = ty x)) as [Heq|Hne].
  { exists x. split; [by left|]. by rewrite <- Heq. }
  assert (before a x (l1 ++ a :: l2 ++ b :: l3)) as Hax.
  { apply before_app. right. right. simpl. left. split; [done|].
    apply elem_of_app. by left. }
  destruct (before_total a x l0) as [Hbefore|Hbefore].
  - rewrite Hperm. apply elem_of_app. right. by left.
  - rewrite Hperm. by apply before_elem_of in Hax as [_ ?].
  - by intros ->.
  - exists a. by auto.
  - destruct (IH x a Hax Hbefore) as (w & Hw & Hsub).
    exists w. split; [done|]. by apply (strict_subclass_trans wf _ (ty a)).
Qed.

(** An element keeps behind those that stood before it unless it derives
    from one of them or from an element before them. *)
Lemma moves_keep_order (wf : wf_hierarchy) l0 l x y :
  NoDup l0 → rtc (precedence_move ty) l0 l →
  before x y l0 → ¬ ancestor_upto ty l0 x y → before x y l.
Proof.
  intros Hnd Hrtc Hxy Hno.
  pose proof (rtc_precedence_move_Permutation _ _ Hrtc) as Hperm.
  destruct (before_elem_of _ _ _ Hxy) as [Hx Hy].
  destruct (before_total x y l) as [Hb|Hb]; [by rewrite <- Hperm..| |done|].
  - intros ->. by destruct (before_asym y y l0).
  - destruct Hno. by apply (overtaking_has_ancestor wf l0 l).
Qed.

(** On a list without inversion the pass changes nothing. *)
Lemma precedence_pass_no_inversion_id fuel : ∀ l,
  no_inversion ty l → precedence_pass ty fuel l = l.
Proof.
  induction fuel as [|fuel IH]; intros [|a rest]; simpl; try done.
  intros [Hf Hno]. apply split_at_subclass_None in Hf.
  destruct (length rest); simpl; rewrite ?Hf; f_equal; by apply IH.
Qed.
End overload_order_facts.

(** * The overload order of a call *)

Section overload_order_claims.
Context `{PyWorld}.

Lemma all_leaves_flat args kwargs :
  all_leaves args kwargs = args ++ (snd <$> kwargs).
Proof.
  unfold all_leaves, args_tree, kwargs_tree. simpl. f_equal.
  - induction args as [|v args IH]; simpl; [done|]. by rewrite IH.
  - induction kwargs as [|[k v] kwargs IH]; simpl; [done|]. by rewrite IH.
Qed.

Lemma overload_order_Permutation args kwargs :
  overload_order args kwargs ≡ₚ first_occurrence_types args kwargs.
Proof.
  unfold overload_order, first_occurrence_types, _get_overloaded_args.
  by rewrite <- subclass_precedence_Permutation.
Qed.

Lemma overload_order_NoDup args kwargs : NoDup (overload_order args kwargs).
Proof.
  rewrite overload_order_Permutation. apply first_occurrence_NoDup.
Qed.

(** C2: when the leaves have the types [A; B] in first-occurrence order and
    [B] is a strict subclass of [A], the OverloadOrder is [B; A]; in every
    OverloadOrder a strict subclass stands before each of its ancestors,
    wherever the arguments stood; the OverloadOrder holds the types of the
    leaves, each once, and is reached from the first-occurrence list by
    subclass-precedence moves, none being possible any more.  Both facts
    hold of every list the moves can end in, whatever pair is moved first. *)
Theorem overload_order_subclass_first (wf : wf_hierarchy) args kwargs :
  let leaves := overriding_leaves args kwargs in
  (∀ A B, first_occurrence_types args kwargs = [A; B] →
          strict_subclass B A = true →
          overload_order args kwargs = [B; A]) ∧
  (∀ i j A B, overload_order args kwargs !! i = Some A →
              overload_order args kwargs !! j = Some B →
              strict_subclass B A = true → j < i) ∧
  overload_order args kwargs ≡ₚ first_occurrence_types args kwargs ∧
  (rtc (precedence_move class_type) (first_occurrence class_type leaves)
     (_get_overloaded_args class_type leaves) ∧
   precedence_fixed class_type (_get_overloaded_args class_type leaves)) ∧
  (∀ l', rtc (precedence_move class_type)
           (first_occurrence class_type leaves) l' →
         precedence_fixed class_type l' →
         (∀ A B, first_occurrence_types args kwargs = [A; B] →
                 strict_subclass B A = true → class_type <$> l' = [B; A]) ∧
         (∀ i j a b, l' !! i = Some a → l' !! j = Some b →
                     strict_subclass (class_type b) (class_type a) = true →
                     j < i)).
Proof.
  intros leaves. split_and!.
  - intros A B Hfo Hs. unfold overload_order, _get_overloaded_args.
    unfold first_occurrence_types in Hfo.
    destruct (first_occurrence class_type (overriding_leaves args kwargs))
      as [|a [|b [|c l]]]; simplify_eq/=.
    unfold subclass_precedence. simpl. by rewrite Hs.
  - intros i j A B Hi Hj Hs. unfold overload_order in Hi, Hj.
    rewrite list_lookup_fmap in Hi, Hj.
    destruct (_ !! i) as [a|] eqn:Ha; simplify_eq/=.
    destruct (_ !! j) as [b|] eqn:Hb; simplify_eq/=.
    eapply (precedence_fixed_lookup class_type); [|exact Ha|exact Hb|exact Hs].
    by apply subclass_precedence_fixed.
  - apply overload_order_Permutation.
  - apply subclass_precedence_moves.
  - by apply subclass_precedence_fixed.
  - intros l' Hrtc Hfix. split.
    + intros A B Hfo Hs. unfold first_occurrence_types in Hfo. fold leaves in Hfo.
      destruct (first_occurrence class_type leaves) as [|a [|b [|c l]]];
        simplify_eq/=.
      by rewrite (precedence_pair_fixed class_type wf a b l' Hs Hrtc Hfix).
    + intros i j a b. by apply precedence_fixed_lookup.
Qed.

(** A type stays behind a type that came before it in first-occurrence
    order unless it is a strict subclass of that type or of a type that came
    earlier still; this holds of every list the moves can lead to. *)
Lemma moves_keep_behind (wf : wf_hierarchy) args kwargs l' i j T U :
  rtc (precedence_move class_type)
    (first_occurrence class_type (overriding_leaves args kwargs)) l' →
  first_occurrence_types args kwargs !! i = Some T →
  first_occurrence_types args kwargs !! j = Some U →
  i < j →
  (∀ k V, k ≤ i → first_occurrence_types args kwargs !! k = Some V →
          strict_subclass U V = false) →
  ∃ i' j', (class_type <$> l') !! i' = Some T ∧
           (class_type <$> l') !! j' = Some U ∧ i' < j'.
Proof.
  unfold first_occurrence_types.
  set (fo := first_occurrence class_type (overriding_leaves args kwargs)).
  intros Hrtc Hi Hj Hlt Hnone.
  pose proof (first_occurrence_NoDup class_type
                (overriding_leaves args kwargs)) as Hndty. fold fo in Hndty.
  pose proof (NoDup_fmap_1 _ _ Hndty) as Hnd.
  apply list_lookup_fmap_Some in Hi as (t & -> & Ht).
  apply list_lookup_fmap_Some in Hj as (u & -> & Hu).
  assert (before t u fo) as Htu.
  { apply (before_lookup class_type). by exists i, j. }
  assert (¬ ancestor_upto class_type fo t u) as Hno.
  { intros (w & [->|Hw] & Hsub).
    - rewrite (Hnone i (class_type t)) in Hsub; [done|lia|].
      by rewrite list_lookup_fmap, Ht.
    - apply (before_lookup class_type) in Hw as (k & m & Hk & Hm & Hkm).
      pose proof (NoDup_lookup _ _ _ _ Hnd Hm Ht) as ->.
      rewrite (Hnone k (class_type w)) in Hsub; [done|lia|].
      by rewrite list_lookup_fmap, Hk. }
  pose proof (moves_keep_order class_type wf fo l' t u Hnd Hrtc Htu Hno)
    as Hkept.
  apply (before_lookup class_type) in Hkept as (i' & j' & Hi' & Hj' & Hlt').
  exists i', j'. by rewrite !list_lookup_fmap, Hi', Hj'.
Qed.

(** C3, as amended: the OverloadOrder never lists a type twice and holds
    the types of the leaves; a type stays behind every type that came
    before it in first-occurrence order unless it is a strict subclass of
    that type or of a type that came earlier still, so that the types that
    are no strict subclass of an earlier type keep their first-occurrence
    order, and the whole order is the first-occurrence order when no type is
    one; leaves of types [A; B; A] with [B] not a subclass of [A] give
    [A; B], and a single leaf of type [T] gives [T]. *)
Theorem overload_order_dedup_first_occurrence (wf : wf_hierarchy) args kwargs :
  NoDup (overload_order args kwargs) ∧
  overload_order args kwargs ≡ₚ first_occurrence_types args kwargs ∧
  (∀ i j T U,
     first_occurrence_types args kwargs !! i = Some T →
     first_occurrence_types args kwargs !! j = Some U →
     i < j →
     (∀ k V, k ≤ i → first_occurrence_types args kwargs !! k = Some V →
             strict_subclass U V = false) →
     ∃ i' j', overload_order args kwargs !! i' = Some T ∧
              overload_order args kwargs !! j' = Some U ∧ i' < j') ∧
  (no_inversion class_type
     (first_occurrence class_type (overriding_leaves args kwargs)) →
   overload_order args kwargs = first_occurrence_types args kwargs) ∧
  (∀ A B, class_type <$> overriding_leaves args kwargs = [A; B; A] →
          issubclass B A = false →
          overload_order args kwargs = [A; B]) ∧
  (∀ T, class_type <$> overriding_leaves args kwargs = [T] →
        overload_order args kwargs = [T]).
Proof.
  split_and!.
  - apply overload_order_NoDup.
  - apply overload_order_Permutation.
  - intros i j T U. apply (moves_keep_behind wf).
    apply subclass_precedence_moves.
  - intros Hno. unfold overload_order, first_occurrence_types.
    unfold _get_overloaded_args, subclass_precedence.
    by rewrite precedence_pass_no_inversion_id.
  - intros A B Hl HBA. unfold overload_order, _get_overloaded_args.
    destruct (overriding_leaves args kwargs) as [|a [|b [|a' [|? ?]]]];
      simplify_eq/=.
    assert (class_type b ≠ class_type a) as Hne.
    { intros Heq. rewrite Heq, (issubclass_refl wf) in HBA. done. }
    unfold first_occurrence, fo_step. simpl.
    rewrite (bool_decide_eq_false_2 (class_type b ∈ [class_type a]))
      by (rewrite list_elem_of_singleton; done).
    simpl.
    rewrite (bool_decide_eq_true_2 (class_type a' ∈ _)) by set_solver.
    unfold subclass_precedence. simpl. unfold strict_subclass.
    by rewrite HBA.
  - intros T Hl. unfold overload_order, _get_overloaded_args.
    destruct (overriding_leaves args kwargs) as [|a [|? ?]]; simplify_eq/=.
    done.
Qed.
End overload_order_claims.

(** * The dispatch loop *)

Section dispatch_claims.
Context `{PyWorld} `{Tracer}.

Lemma tf_call_torch_function_log arg fn types args kwargs tx r tx' :
  tf_call_torch_function arg fn types args kwargs tx = (r, tx') →
  inlined tx' = inlined tx ++ [handler_call fn types args kwargs arg].
Proof.
  unfold tf_call_torch_function, call_torch_function,
    inline_user_function_return, handler_call.
  destruct (user_function _ _) as [r0 out]. by intros [= <- <-].
Qed.

Lemma all_decline_log fn types args kwargs handlers : ∀ tx tx1,
  all_decline fn types args kwargs handlers tx = Some tx1 →
  inlined tx1 = inlined tx ++ (handler_call fn types args kwargs <$> handlers).
Proof.
  induction handlers as [|arg handlers IH]; intros tx tx1; simpl.
  { intros [= <-]. by rewrite app_nil_r. }
  destruct (tf_call_torch_function _ _ _ _ _ _) as [[res|e] tx'] eqn:Hcall;
    [|done].
  destruct (is_NotImplemented res); [|done]. intros Hrest.
  apply IH in Hrest. apply tf_call_torch_function_log in Hcall.
  by rewrite Hrest, Hcall, <- app_assoc.
Qed.

Lemma dispatch_loop_declined fn types args kwargs pre rest : ∀ tx tx1,
  all_decline fn types args kwargs pre tx = Some tx1 →
  dispatch_loop fn types args kwargs (pre ++ rest) tx =
  dispatch_loop fn types args kwargs rest tx1.
Proof.
  induction pre as [|arg pre IH]; intros tx tx1; simpl.
  { by intros [= <-]. }
  unfold bind at 1.
  destruct (tf_call_torch_function _ _ _ _ _ _) as [[res|e] tx'] eqn:Hcall;
    [|done].
  destruct (is_NotImplemented res); [|done]. simpl. apply IH.
Qed.

(** Either every handler declines, or one of them is the first not to. *)
Lemma all_decline_cases fn types args kwargs handlers : ∀ tx,
  (∃ tx1, all_decline fn types args kwargs handlers tx = Some tx1) ∨
  (∃ pre arg post tx1 out tx2,
     handlers = pre ++ arg :: post ∧
     all_decline fn types args kwargs pre tx = Some tx1 ∧
     tf_call_torch_function arg fn types args kwargs tx1 = (out, tx2) ∧
     match out with
     | Return res => is_NotImplemented res = false
     | Raise _ => True
     end).
Proof.
  induction handlers as [|arg handlers IH]; intros tx; simpl; [by eauto|].
  destruct (tf_call_torch_function arg fn types args kwargs tx)
    as [[res|e] tx'] eqn:Hcall.
  - destruct (is_NotImplemented res) eqn:Hres.
    + destruct (IH tx') as [Hall|(pre & a & post & tx1 & out & tx2 & Hsplit)].
      * by left.
      * destruct Hsplit as (-> & Hpre & Ha & Hout). right.
        exists (arg :: pre), a, post, tx1, out, tx2. simpl.
        by rewrite Hcall, Hres.
    + right. exists [], arg, handlers, tx, (Return res), tx'. by simpl.
  - right. exists [], arg, handlers, tx, (Raise e), tx'. by simpl.
Qed.

(** C1: the handlers run in OverloadOrder.  When those before [arg] have all
    returned [NotImplemented] and the handler of [arg] returns something
    else, that result is returned and the log holds the calls up to [arg]
    and none after it; when every handler returns [NotImplemented], the
    dispatch fails with [UnsupportedDispatch], which carries the function
    and both argument collections; an exception of a handler is passed on.
    One of the three always applies. *)
Theorem dispatch_first_non_sentinel fn args kwargs tx :
  let order :=
    _get_overloaded_args class_type (overriding_leaves args kwargs) in
  let types := TupleVariable (subclass_type_var <$> order) in
  (∀ pre arg post res tx1 tx2,
     order = pre ++ arg :: post →
     all_decline fn types args kwargs pre tx = Some tx1 →
     tf_call_torch_function arg fn types args kwargs tx1 = (Return res, tx2) →
     is_NotImplemented res = false →
     dispatch_torch_function fn args kwargs tx = (Return res, tx2) ∧
     inlined tx2 =
       inlined tx ++ (handler_call fn types args kwargs <$> pre ++ [arg])) ∧
  (∀ tx1,
     all_decline fn types args kwargs order tx = Some tx1 →
     dispatch_torch_function fn args kwargs tx =
       (Raise (UnsupportedDispatch fn args kwargs), tx1) ∧
     inlined tx1 =
       inlined tx ++ (handler_call fn types args kwargs <$> order)) ∧
  (∀ pre arg post e tx1 tx2,
     order = pre ++ arg :: post →
     all_decline fn types args kwargs pre tx = Some tx1 →
     tf_call_torch_function arg fn types args kwargs tx1 = (Raise e, tx2) →
     dispatch_torch_function fn args kwargs tx = (Raise e, tx2)) ∧
  ((∃ tx1, all_decline fn types args kwargs order tx = Some tx1) ∨
   (∃ pre arg post tx1 out tx2,
      order = pre ++ arg :: post ∧
      all_decline fn types args kwargs pre tx = Some tx1 ∧
      tf_call_torch_function arg fn types args kwargs tx1 = (out, tx2) ∧
      match out with
      | Return res => is_NotImplemented res = false
      | Raise _ => True
      end)).
Proof.
  intros order types. unfold dispatch_torch_function. fold order. fold types.
  split_and!; [| | |apply all_decline_cases].
  - intros pre arg post res tx1 tx2 -> Hpre Hcall Hres. split.
    + rewrite (dispatch_loop_declined _ _ _ _ _ _ _ _ Hpre). simpl.
      unfold bind. by rewrite Hcall, Hres.
    + apply all_decline_log in Hpre.
      apply tf_call_torch_function_log in Hcall.
      by rewrite Hcall, Hpre, fmap_app, app_assoc.
  - intros tx1 Hall. split; [|by apply all_decline_log].
    pose proof (dispatch_loop_declined fn types args kwargs order [] tx tx1
                  Hall) as Hloop.
    rewrite app_nil_r in Hloop. exact Hloop.
  - intros pre arg post e tx1 tx2 -> Hpre Hcall.
    rewrite (dispatch_loop_declined _ _ _ _ _ _ _ _ Hpre). simpl.
    unfold bind. by rewrite Hcall.
Qed.

Lemma existsb_is_tf_override l :
  existsb is_tf_override l = true ↔ omap as_tf_override l ≠ [].
Proof.
  induction l as [|v l IH]; simpl; [done|].
  destruct v; simpl; try exact IH; done.
Qed.

(** C4: dispatch is eligible exactly when the flag is set and some leaf of
    the flattened arguments is a [TensorWithTFOverrideVariable]; a call
    without such a leaf is not eligible, and dispatching it invokes no
    handler: the state, and the log with it, is left as it was. *)
Theorem can_dispatch_iff tx args kwargs :
  (can_dispatch_torch_function tx args kwargs = true ↔
   torch_function_enabled (output tx) = true ∧
   ∃ v o, v ∈ all_leaves args kwargs ∧ v = TensorWithTFOverrideVariable o) ∧
  (overriding_leaves args kwargs = [] →
   can_dispatch_torch_function tx args kwargs = false ∧
   ∀ fn, dispatch_torch_function fn args kwargs tx =
           (Raise (UnsupportedDispatch fn args kwargs), tx)).
Proof.
  unfold can_dispatch_torch_function. split.
  - destruct (torch_function_enabled (output tx));
      [|split; [done|by intros [? _]]].
    rewrite existsb_exists. split.
    + intros (v & Hv & Hov). split; [done|].
      unfold is_tf_override in Hov. apply bool_decide_eq_true in Hov as [o Ho].
      exists v, o. split; [by apply list_elem_of_In|].
      by destruct v; simplify_eq/=.
    + intros (_ & v & o & Hv & ->). exists (TensorWithTFOverrideVariable o).
      split; [by apply list_elem_of_In|].
      unfold is_tf_override. apply bool_decide_eq_true. by eexists.
  - intros Hnone. split.
    + destruct (torch_function_enabled (output tx)); [|done].
      apply not_true_is_false. rewrite existsb_is_tf_override.
      unfold overriding_leaves in Hnone. rewrite Hnone. by intros Hne.
    + intros fn. unfold dispatch_torch_function. by rewrite Hnone.
Qed.
End dispatch_claims.

(** * The attribute and method trampolines *)

Section trampoline_claims.
Context `{PyWorld} `{Tracer}.

Lemma _is_attr_overidden_spec self name :
  _is_attr_overidden self name = true ↔ overridden_on_type self name.
Proof.
  unfold _is_attr_overidden, overridden_on_type.
  destruct (getattr_static _ _) as [attr_val|];
    [|split; [done|by intros (? & ? & ? & _)]].
  destruct (getattr_Tensor _) as [base_val|];
    [|split; [done|by intros (? & ? & _ & ? & _)]].
  simpl. rewrite bool_decide_eq_true. split.
  - intros Hne. by exists attr_val, base_val.
  - intros (a & b & [= <-] & [= <-] & Hne). done.
Qed.

Lemma guard_banned_or_missing name :
  bool_decide (name ∈ banned_attrs)
  || negb (bool_decide (is_Some (getattr_Tensor name))) = true ↔
  name ∈ banned_attrs ∨ getattr_Tensor name = None.
Proof.
  rewrite orb_true_iff, negb_true_iff, bool_decide_eq_true,
    bool_decide_eq_false, <- eq_None_not_Some. done.
Qed.

Lemma var_getattr_first_check self name tx :
  name ∈ banned_attrs ∨ getattr_Tensor name = None →
  var_getattr self name tx = (Raise (Unsupported (AccessNotSupported name)), tx).
Proof.
  intros Hguard. apply guard_banned_or_missing in Hguard.
  unfold var_getattr. by rewrite Hguard.
Qed.

(** C7: a name of the deny-list, or one that [torch.Tensor] does not have,
    makes the attribute access fail with [UnsupportedAttribute], whatever
    the declared type does with the name and whatever the flag says. *)
Theorem var_getattr_banned_or_missing self name tx :
  name ∈ banned_attrs ∨ getattr_Tensor name = None →
  var_getattr self name tx = (Raise (UnsupportedAttribute name), tx).
Proof. apply var_getattr_first_check. Qed.

(** C10: a name that static lookup does not find on the declared type, or
    that [torch.Tensor] does not have, is reported as not overridden; the
    attribute access then fails only for the deny-list or the missing base
    attribute and otherwise goes on, and so does the method call. *)
Theorem absent_attr_not_overridden self name :
  getattr_static (class_type self) name = None ∨ getattr_Tensor name = None →
  _is_attr_overidden self name = false ∧
  (∀ tx, var_getattr self name tx =
         if bool_decide (name ∈ banned_attrs)
            || negb (bool_decide (is_Some (getattr_Tensor name)))
         then (Raise (UnsupportedAttribute name), tx)
         else if torch_function_enabled (output tx)
         then getattr_trampoline self name tx
         else TensorVariable_var_getattr self name tx) ∧
  (∀ tx args kwargs,
     torch_function_enabled (output tx) = true →
     call_method self name args kwargs tx =
     method_trampoline self name args kwargs tx).
Proof.
  intros Habsent.
  assert (_is_attr_overidden self name = false) as Hno.
  { unfold _is_attr_overidden. destruct Habsent as [-> | ->]; [done|].
    by destruct (getattr_static _ _). }
  split_and!; [done| |].
  - intros tx. unfold var_getattr. rewrite Hno.
    destruct (_ || _); [done|]. unfold bind, get_tx.
    by destruct (torch_function_enabled (output tx)).
  - intros tx args kwargs Hon. unfold call_method, bind, get_tx.
    by rewrite Hon, Hno.
Qed.

(** C6, as amended: a name that the declared type overrides makes the
    attribute access fail with [OverriddenAttributeUnsupported] unless the
    name is on the deny-list, which is tested first and gives
    [UnsupportedAttribute]; it makes the method call fail with
    [OverriddenAttributeUnsupported] when the flag is set. *)
Theorem overridden_attr_rejected self name tx :
  overridden_on_type self name →
  (name ∉ banned_attrs →
   var_getattr self name tx = (Raise (Unsupported (AccessOverridden name)), tx)) ∧
  (name ∈ banned_attrs →
   var_getattr self name tx = (Raise (UnsupportedAttribute name), tx)) ∧
  (∀ args kwargs,
     torch_function_enabled (output tx) = true →
     call_method self name args kwargs tx =
     (Raise (Unsupported (CallOverridden name)), tx)).
Proof.
  intros Hov. pose proof Hov as (attr_val & base_val & _ & Hbase & _).
  apply _is_attr_overidden_spec in Hov. split_and!.
  - intros Hnb. unfold var_getattr.
    rewrite bool_decide_eq_false_2 by done.
    rewrite bool_decide_eq_true_2 by (rewrite Hbase; eauto).
    simpl. by rewrite Hov.
  - intros Hb. apply var_getattr_first_check. by left.
  - intros args kwargs Hon. unfold call_method, bind, get_tx.
    by rewrite Hon, Hov.
Qed.

(** C5, as amended: with the flag cleared no call is eligible for dispatch,
    and an attribute access is left to the plain tensor variable once the
    name has passed the two checks, which are made whatever the flag
    says. *)
Theorem disabled_bypass self name args kwargs tx :
  torch_function_enabled (output tx) = false →
  can_dispatch_torch_function tx args kwargs = false ∧
  var_getattr self name tx =
    if bool_decide (name ∈ banned_attrs)
       || negb (bool_decide (is_Some (getattr_Tensor name)))
    then (Raise (UnsupportedAttribute name), tx)
    else if _is_attr_overidden self name
    then (Raise (Unsupported (AccessOverridden name)), tx)
    else TensorVariable_var_getattr self name tx.
Proof.
  intros Hoff. split_and!.
  - unfold can_dispatch_torch_function. by rewrite Hoff.
  - unfold var_getattr. destruct (_ || _); [done|].
    destruct (_is_attr_overidden self name); [done|].
    unfold bind, get_tx. by rewrite Hoff.
Qed.

Lemma lookup_attr_Return found name o tx tx1 :
  lookup_attr found name tx = (Return o, tx1) → found = Some o ∧ tx1 = tx.
Proof. destruct found; simpl; by intros [= <- <-]. Qed.

Lemma on_output_log {A} (f : OutputGraph → Outcome A * OutputGraph) tx r tx1 :
  on_output f tx = (r, tx1) → inlined tx1 = inlined tx.
Proof. unfold on_output. destruct (f _). by intros [= <- <-]. Qed.

Lemma wrap_object_log self path o tx r tx1 :
  wrap_object self path o tx = (r, tx1) → inlined tx1 = inlined tx.
Proof. unfold wrap_object. destruct (source self); apply on_output_log. Qed.

Lemma not_overridden_same self name attr_val base_val :
  _is_attr_overidden self name = false →
  getattr_static (class_type self) name = Some attr_val →
  getattr_Tensor name = Some base_val → attr_val = base_val.
Proof.
  unfold _is_attr_overidden. intros Hno Hattr Hbase.
  rewrite Hattr, Hbase in Hno. simpl in Hno.
  apply bool_decide_eq_false in Hno. by apply dec_stable.
Qed.

Lemma build_get_fn_base self name base_attr tx get_fn tx1 :
  _is_attr_overidden self name = false →
  getattr_Tensor name = Some base_attr →
  build_get_fn self name tx = (Return get_fn, tx1) →
  ∃ getter, dunder_get base_attr = Some getter ∧
    wrap_object self
      (λ src, AttrSource (AttrSource (AttrSource src "__class__") name)
                "__get__")
      getter tx = (Return get_fn, tx1).
Proof.
  intros Hno Hbase. unfold build_get_fn, wrap_object, python_type, bind.
  destruct (source self) as [src|].
  - destruct (lookup_attr (getattr_static _ _) _ _) as [[attr|] tx2] eqn:Hattr;
      [|done].
    apply lookup_attr_Return in Hattr as [Hattr ->].
    rewrite (not_overridden_same _ _ _ _ Hno Hattr Hbase).
    destruct (lookup_attr (dunder_get _) _ _) as [[getter|] tx2] eqn:Hget;
      [|done].
    apply lookup_attr_Return in Hget as [Hget ->]. eauto.
  - rewrite Hbase. simpl.
    destruct (lookup_attr (dunder_get _) _ _) as [[getter|] tx2] eqn:Hget;
      [|done].
    apply lookup_attr_Return in Hget as [Hget ->]. eauto.
Qed.

Lemma build_func_var_base self name base_attr tx func_var tx1 :
  _is_attr_overidden self name = false →
  getattr_Tensor name = Some base_attr →
  build_func_var self name tx = (Return func_var, tx1) →
  wrap_object self (λ src, AttrSource (AttrSource src "__class__") name)
    base_attr tx = (Return func_var, tx1).
Proof.
  intros Hno Hbase. unfold build_func_var, wrap_object, python_type, bind.
  destruct (source self) as [src|].
  - destruct (lookup_attr (getattr_static _ _) _ _) as [[attr|] tx2] eqn:Hattr;
      [|done].
    apply lookup_attr_Return in Hattr as [Hattr ->].
    by rewrite (not_overridden_same _ _ _ _ Hno Hattr Hbase).
  - by rewrite Hbase.
Qed.

Lemma foldl_fo_step_same_type (x : TFOverride) l :
  Forall (λ o, class_type o = class_type x) l →
  foldl (fo_step class_type) [x] l = [x].
Proof.
  induction 1 as [|y l Hy _ IH]; simpl; [done|].
  unfold fo_step at 2. simpl.
  rewrite bool_decide_eq_true_2 by (rewrite Hy; by left). done.
Qed.

Lemma overriding_leaves_self self args kwargs :
  overriding_leaves (TensorWithTFOverrideVariable self :: args) kwargs =
  self :: overriding_leaves args kwargs.
Proof. unfold overriding_leaves. by rewrite !all_leaves_flat. Qed.

Lemma overloaded_args_same_type self args kwargs :
  Forall (λ o, class_type o = class_type self) (overriding_leaves args kwargs) →
  _get_overloaded_args class_type
    (overriding_leaves (TensorWithTFOverrideVariable self :: args) kwargs)
  = [self].
Proof.
  intros Hsame. rewrite overriding_leaves_self.
  unfold _get_overloaded_args, first_occurrence. simpl.
  unfold fo_step at 2. simpl. by rewrite foldl_fo_step_same_type.
Qed.

(** C8, as amended, for a name that [torch.Tensor] has and the declared
    type does not override, with the flag set.  Attribute access calls the
    handler of the value itself, once, with the wrapped [__get__] of the
    base attribute, the one-element tuple of the declared type, the value
    as only argument and no keyword argument.  A method call hands the
    wrapped base method, the value put before the call's arguments and the
    call's keyword arguments to [dispatch_torch_function]; the tuple of
    types is then the OverloadOrder of that call, which is the declared type
    alone when every overriding leaf has that type. *)
Theorem trampoline_synthetic_call self name base_attr tx :
  torch_function_enabled (output tx) = true →
  getattr_Tensor name = Some base_attr →
  _is_attr_overidden self name = false →
  (name ∉ banned_attrs →
   ∀ get_fn tx1,
     build_get_fn self name tx = (Return get_fn, tx1) →
     (∃ getter, dunder_get base_attr = Some getter ∧
        wrap_object self
          (λ src, AttrSource (AttrSource (AttrSource src "__class__") name)
                    "__get__")
          getter tx = (Return get_fn, tx1)) ∧
     var_getattr self name tx =
       tf_call_torch_function self get_fn
         (TupleVariable [subclass_type_var self])
         [TensorWithTFOverrideVariable self] [] tx1 ∧
     ∀ r tx', var_getattr self name tx = (r, tx') →
       inlined tx' =
       inlined tx ++
         [handler_call get_fn (TupleVariable [subclass_type_var self])
            [TensorWithTFOverrideVariable self] [] self]) ∧
  (∀ args kwargs func_var tx1,
     build_func_var self name tx = (Return func_var, tx1) →
     wrap_object self (λ src, AttrSource (AttrSource src "__class__") name)
       base_attr tx = (Return func_var, tx1) ∧
     call_method self name args kwargs tx =
       dispatch_torch_function func_var
         (TensorWithTFOverrideVariable self :: args) kwargs tx1 ∧
     (Forall (λ o, class_type o = class_type self)
        (overriding_leaves args kwargs) →
      ∀ r tx', call_method self name args kwargs tx = (r, tx') →
        inlined tx' =
        inlined tx ++
          [handler_call func_var (TupleVariable [subclass_type_var self])
             (TensorWithTFOverrideVariable self :: args) kwargs self])).
Proof.
  intros Hon Hbase Hno. split.
  - intros Hnb get_fn tx1 Hbuild.
    destruct (build_get_fn_base _ _ _ _ _ _ Hno Hbase Hbuild)
      as (getter & Hget & Hwrap).
    assert (var_getattr self name tx =
            tf_call_torch_function self get_fn
              (TupleVariable [subclass_type_var self])
              [TensorWithTFOverrideVariable self] [] tx1) as Hcall.
    { unfold var_getattr.
      rewrite bool_decide_eq_false_2 by done.
      rewrite bool_decide_eq_true_2 by (rewrite Hbase; eauto).
      simpl. rewrite Hno. unfold bind at 1. unfold get_tx. rewrite Hon.
      unfold getattr_trampoline, bind. by rewrite Hbuild. }
    split_and!; [eauto|done|].
    intros r tx' Hres. rewrite Hcall in Hres.
    apply tf_call_torch_function_log in Hres.
    apply wrap_object_log in Hwrap. by rewrite Hres, Hwrap.
  - intros args kwargs func_var tx1 Hbuild.
    pose proof (build_func_var_base _ _ _ _ _ _ Hno Hbase Hbuild) as Hwrap.
    assert (call_method self name args kwargs tx =
            dispatch_torch_function func_var
              (TensorWithTFOverrideVariable self :: args) kwargs tx1) as Hcall.
    { unfold call_method. unfold bind at 1. unfold get_tx. rewrite Hon, Hno.
      unfold method_trampoline, bind. by rewrite Hbuild. }
    split_and!; [done|done|].
    intros Hsame r tx' Hres. rewrite Hcall in Hres.
    unfold dispatch_torch_function in Hres.
    rewrite (overloaded_args_same_type _ _ _ Hsame) in Hres. simpl in Hres.
    unfold bind in Hres.
    destruct (tf_call_torch_function _ _ _ _ _ _) as [[res|e] tx2] eqn:Hh.
    + apply tf_call_torch_function_log in Hh. apply wrap_object_log in Hwrap.
      rewrite Hwrap in Hh.
      destruct (is_NotImplemented res); simpl in Hres;
        by injection Hres as <- <-.
    + apply tf_call_torch_function_log in Hh. apply wrap_object_log in Hwrap.
      rewrite Hwrap in Hh. by injection Hres as <- <-.
Qed.
End trampoline_claims.

(** * The mangled global name *)

Section registration_claims.
Context `{PyWorld}.

Lemma global_mangled_class_name_id v1 v2 :
  global_mangled_class_name v1 = global_mangled_class_name v2 →
  cls_name (class_type v1) = cls_name (class_type v2) →
  cls_id (class_type v1) = cls_id (class_type v2).
Proof.
  unfold global_mangled_class_name. intros Heq Hname. rewrite Hname in Heq.
  do 3 apply String.app_inj in Heq. by apply pretty_N_inj in Heq.
Qed.

Lemma from_tensor_var_bound tensor_var cls fn tx :
  tv_class_type tensor_var = torch_Tensor →
  let var := mkTFOverride cls fn (tv_source tensor_var) (tv_proxy tensor_var) in
  is_Some (global_scope (output tx) !! global_mangled_class_name var) →
  from_tensor_var tensor_var cls fn tx = (Return var, tx).
Proof.
  intros HT var [g Hg]. unfold from_tensor_var.
  rewrite bool_decide_eq_true_2 by done. unfold bind, get_tx.
  fold var. by rewrite Hg.
Qed.

Lemma from_tensor_var_fresh tensor_var cls fn tx :
  tv_class_type tensor_var = torch_Tensor →
  let var := mkTFOverride cls fn (tv_source tensor_var) (tv_proxy tensor_var) in
  global_scope (output tx) !! global_mangled_class_name var = None →
  from_tensor_var tensor_var cls fn tx =
  (Return var,
   mkTx (mkOutputGraph (torch_function_enabled (output tx))
           (<[global_mangled_class_name var := GClass cls]>
              (global_scope (output tx))))
        (inlined tx)).
Proof.
  intros HT var Hg. unfold from_tensor_var.
  rewrite bool_decide_eq_true_2 by done. unfold bind, get_tx.
  fold var. by rewrite Hg.
Qed.

(** C9: the mangled name is a function of the class, made of its name and
    of its identity, so that two classes of the same name get two names;
    [from_tensor_var] binds the name to the class unless the name is bound
    already, in which case it changes nothing and raises nothing, so that a
    second registration is without effect. *)
Theorem mangled_name_registration :
  (∀ v1 v2, class_type v1 = class_type v2 →
            global_mangled_class_name v1 = global_mangled_class_name v2) ∧
  (∀ v,
     global_mangled_class_name v =
     "__subclass_" +:+ cls_name (class_type v) +:+ "_"
       +:+ pretty (cls_id (class_type v))) ∧
  (∀ v1 v2, cls_name (class_type v1) = cls_name (class_type v2) →
            class_type v1 ≠ class_type v2 →
            global_mangled_class_name v1 ≠ global_mangled_class_name v2) ∧
  (∀ tensor_var cls fn tx,
     tv_class_type tensor_var = torch_Tensor →
     ∃ var tx1,
       from_tensor_var tensor_var cls fn tx = (Return var, tx1) ∧
       class_type var = cls ∧
       is_Some (global_scope (output tx1) !! global_mangled_class_name var) ∧
       (global_scope (output tx) !! global_mangled_class_name var = None →
        global_scope (output tx1) =
        <[global_mangled_class_name var := GClass cls]>
          (global_scope (output tx))) ∧
       (is_Some (global_scope (output tx) !! global_mangled_class_name var) →
        tx1 = tx) ∧
       from_tensor_var tensor_var cls fn tx1 = (Return var, tx1)).
Proof.
  split_and!.
  - intros v1 v2 Heq. unfold global_mangled_class_name. by rewrite Heq.
  - done.
  - intros v1 v2 Hname Hne Heq. apply Hne.
    pose proof (global_mangled_class_name_id _ _ Heq Hname) as Hid.
    destruct (class_type v1), (class_type v2). simpl in *. by subst.
  - intros tensor_var cls fn tx HT.
    set (var := mkTFOverride cls fn (tv_source tensor_var)
                  (tv_proxy tensor_var)).
    destruct (global_scope (output tx) !! global_mangled_class_name var)
      as [g|] eqn:Hlook.
    + exists var, tx.
      pose proof (from_tensor_var_bound tensor_var cls fn tx HT
                    (mk_is_Some _ _ Hlook)) as Hrun.
      split_and!; [done|done|by rewrite Hlook|by rewrite Hlook|done|done].
    + pose proof (from_tensor_var_fresh tensor_var cls fn tx HT Hlook) as Hrun.
      fold var in Hrun. eexists var, _. split; [exact Hrun|].
      split_and!; simpl.
      * done.
      * rewrite lookup_insert_eq. eauto.
      * done.
      * rewrite Hlook. by intros [? ?].
      * apply from_tensor_var_bound; [done|]. simpl.
        rewrite lookup_insert_eq. eauto.
Qed.
End registration_claims.

(** * Further properties of the dispatch *)

Section dispatch_extras.
Context `{PyWorld} `{Tracer}.

Lemma dispatch_loop_not_sentinel fn types args kwargs remaining : ∀ tx res tx',
  dispatch_loop fn types args kwargs remaining tx = (Return res, tx') →
  is_NotImplemented res = false.
Proof.
  induction remaining as [|arg remaining IH]; intros tx res tx'; simpl; [done|].
  unfold bind at 1.
  destruct (tf_call_torch_function _ _ _ _ _ _) as [[r|e] tx1]; [|done].
  destruct (is_NotImplemented r) eqn:Hr; simpl.
  - apply IH.
  - by intros [= <- <-].
Qed.

Lemma dispatch_loop_log fn types args kwargs remaining : ∀ tx r tx',
  dispatch_loop fn types args kwargs remaining tx = (r, tx') →
  ∃ invoked, invoked `prefix_of` remaining ∧
    inlined tx' = inlined tx ++ (handler_call fn types args kwargs <$> invoked).
Proof.
  induction remaining as [|arg remaining IH]; intros tx r tx'; simpl.
  { intros [= <- <-]. exists []. by rewrite app_nil_r. }
  unfold bind at 1.
  destruct (tf_call_torch_function _ _ _ _ _ _) as [[res|e] tx1] eqn:Hcall.
  - apply tf_call_torch_function_log in Hcall.
    destruct (is_NotImplemented res); simpl.
    + intros Hrest. apply IH in Hrest as (invoked & Hpre & Hlog).
      exists (arg :: invoked). split; [by apply prefix_cons|].
      by rewrite Hlog, Hcall, <- app_assoc.
    + intros [= <- <-]. exists [arg].
      split; [apply prefix_cons, prefix_nil|done].
  - apply tf_call_torch_function_log in Hcall. intros [= <- <-].
    exists [arg]. split; [apply prefix_cons, prefix_nil|done].
Qed.

(** X1: [dispatch_torch_function] never hands the sentinel back: what it
    returns is not [NotImplemented]. *)
Theorem dispatch_never_returns_sentinel fn args kwargs tx res tx' :
  dispatch_torch_function fn args kwargs tx = (Return res, tx') →
  is_NotImplemented res = false.
Proof. apply dispatch_loop_not_sentinel. Qed.

(** X3: eligibility looks at the positional arguments and at the values of
    the keyword arguments, and at nothing else: a call is eligible when one
    of its parts is, and the keyword names play no role. *)
Theorem can_dispatch_parts tx args1 args2 kwargs1 kwargs2 :
  can_dispatch_torch_function tx (args1 ++ args2) (kwargs1 ++ kwargs2) =
    can_dispatch_torch_function tx args1 kwargs1
    || can_dispatch_torch_function tx args2 kwargs2 ∧
  can_dispatch_torch_function tx args1 kwargs1 =
    can_dispatch_torch_function tx (args1 ++ (snd <$> kwargs1)) [].
Proof.
  unfold can_dispatch_torch_function. rewrite !all_leaves_flat.
  destruct (torch_function_enabled (output tx)); [|done].
  rewrite fmap_app, !existsb_app. simpl. rewrite orb_false_r.
  split; [|done].
  repeat destruct (existsb _ _); done.
Qed.

(** X4: the calls that one dispatch logs are the handler calls of a prefix
    of the overloaded arguments, in their order; every handler is given the
    same function, tuple of types, arguments and keyword arguments, and no
    two calls are for the same type. *)
Theorem dispatch_calls_prefix fn args kwargs tx r tx' :
  dispatch_torch_function fn args kwargs tx = (r, tx') →
  let order :=
    _get_overloaded_args class_type (overriding_leaves args kwargs) in
  let types := TupleVariable (subclass_type_var <$> order) in
  ∃ invoked,
    invoked `prefix_of` order ∧
    inlined tx' = inlined tx ++ (handler_call fn types args kwargs <$> invoked) ∧
    NoDup (class_type <$> invoked) ∧
    length invoked ≤ length (overriding_leaves args kwargs).
Proof.
  intros Hrun order types. unfold dispatch_torch_function in Hrun.
  apply dispatch_loop_log in Hrun as (invoked & Hpre & Hlog).
  exists invoked. split_and!; [done|done| |].
  - destruct Hpre as [rest Hrest].
    pose proof (overload_order_NoDup args kwargs) as Hnd.
    unfold overload_order in Hnd. unfold order in Hrest.
    rewrite Hrest, fmap_app in Hnd. by apply NoDup_app in Hnd as [? _].
  - etrans; [by apply prefix_length|].
    unfold order, _get_overloaded_args.
    rewrite <- subclass_precedence_Permutation.
    apply (fo_foldl_length_le class_type _ []).
Qed.

(** X7: the OverloadOrder is read off the overriding leaves alone: an
    argument that is not a [TensorWithTFOverrideVariable] changes nothing
    wherever it stands, and a last positional argument may as well be passed
    first by keyword, under any name. *)
Theorem overload_order_leaves_only args1 args2 kwargs v k :
  (as_tf_override v = None →
   overload_order (args1 ++ v :: args2) kwargs =
   overload_order (args1 ++ args2) kwargs) ∧
  overload_order (args1 ++ [v]) kwargs =
  overload_order args1 ((k, v) :: kwargs).
Proof.
  unfold overload_order, overriding_leaves. rewrite !all_leaves_flat. split.
  - intros Hv. rewrite <- !app_assoc. simpl.
    rewrite !omap_app. simpl. rewrite Hv. by rewrite ?omap_app.
  - by rewrite <- app_assoc.
Qed.
End dispatch_extras.

(** * Further properties of the trampolines and of the registration *)

Section trampoline_extras.
Context `{PyWorld} `{Tracer}.

Lemma lookup_attr_log found name tx r tx1 :
  lookup_attr found name tx = (r, tx1) → tx1 = tx.
Proof. destruct found; simpl; by intros [= <- <-]. Qed.

Lemma build_get_fn_log self name tx r tx1 :
  build_get_fn self name tx = (r, tx1) → inlined tx1 = inlined tx.
Proof.
  unfold build_get_fn, bind.
  destruct (source self) as [src|].
  - destruct (lookup_attr (getattr_static _ _) _ _) as [[attr|e] tx2] eqn:Ha;
      apply lookup_attr_log in Ha as ->; [|by intros [= <- <-]].
    destruct (lookup_attr (dunder_get _) _ _) as [[getter|e] tx2] eqn:Hg;
      apply lookup_attr_log in Hg as ->; [|by intros [= <- <-]].
    apply on_output_log.
  - destruct (lookup_attr (getattr_Tensor _) _ _) as [[attr|e] tx2] eqn:Ha;
      apply lookup_attr_log in Ha as ->; [|by intros [= <- <-]].
    destruct (lookup_attr (dunder_get _) _ _) as [[getter|e] tx2] eqn:Hg;
      apply lookup_attr_log in Hg as ->; [|by intros [= <- <-]].
    apply on_output_log.
Qed.

Lemma build_func_var_log self name tx r tx1 :
  build_func_var self name tx = (r, tx1) → inlined tx1 = inlined tx.
Proof.
  unfold build_func_var, bind.
  destruct (source self) as [src|].
  - destruct (lookup_attr (getattr_static _ _) _ _) as [[attr|e] tx2] eqn:Ha;
      apply lookup_attr_log in Ha as ->; [|by intros [= <- <-]].
    apply on_output_log.
  - destruct (lookup_attr (getattr_Tensor _) _ _) as [[attr|e] tx2] eqn:Ha;
      apply lookup_attr_log in Ha as ->; [|by intros [= <- <-]].
    apply on_output_log.
Qed.

Lemma var_getattr_enabled self name base_attr tx :
  torch_function_enabled (output tx) = true →
  name ∉ banned_attrs →
  getattr_Tensor name = Some base_attr →
  _is_attr_overidden self name = false →
  var_getattr self name tx = getattr_trampoline self name tx.
Proof.
  intros Hon Hnb Hbase Hno. unfold var_getattr.
  rewrite bool_decide_eq_false_2 by done.
  rewrite bool_decide_eq_true_2 by (rewrite Hbase; eauto).
  simpl. rewrite Hno. unfold bind, get_tx. by rewrite Hon.
Qed.

Lemma call_method_enabled self name args kwargs tx :
  torch_function_enabled (output tx) = true →
  _is_attr_overidden self name = false →
  call_method self name args kwargs tx =
  method_trampoline self name args kwargs tx.
Proof.
  intros Hon Hno. unfold call_method, bind, get_tx. by rewrite Hon, Hno.
Qed.

(** X9: an attribute access that passes the checks returns what the handler
    of the value returns, whatever it is: [NotImplemented] too is handed
    back, and is not turned into an error.  The handler is called once. *)
Theorem var_getattr_returns_handler_result
    self name base_attr tx get_fn tx1 r out2 :
  torch_function_enabled (output tx) = true →
  name ∉ banned_attrs →
  getattr_Tensor name = Some base_attr →
  _is_attr_overidden self name = false →
  build_get_fn self name tx = (Return get_fn, tx1) →
  let call :=
    handler_call get_fn (TupleVariable [subclass_type_var self])
      [TensorWithTFOverrideVariable self] [] self in
  user_function call (output tx1) = (r, out2) →
  var_getattr self name tx = (r, mkTx out2 (inlined tx ++ [call])).
Proof.
  intros Hon Hnb Hbase Hno Hbuild call Hrun.
  rewrite (var_getattr_enabled _ _ _ _ Hon Hnb Hbase Hno).
  unfold getattr_trampoline, bind. rewrite Hbuild.
  unfold tf_call_torch_function, call_torch_function,
    inline_user_function_return.
  fold (handler_call get_fn (TupleVariable [subclass_type_var self])
          [TensorWithTFOverrideVariable self] [] self). fold call.
  rewrite Hrun. by rewrite (build_get_fn_log _ _ _ _ _ Hbuild).
Qed.

(** X10: a method call whose overriding leaves all have the type of the
    value asks the handler of the value and no other; when that handler
    returns [NotImplemented] the call fails with [UnsupportedDispatch],
    which carries the wrapped method, the value followed by the arguments,
    and the keyword arguments. *)
Theorem call_method_declined self name args kwargs tx func_var tx1 res out2 :
  torch_function_enabled (output tx) = true →
  _is_attr_overidden self name = false →
  build_func_var self name tx = (Return func_var, tx1) →
  Forall (λ o, class_type o = class_type self) (overriding_leaves args kwargs) →
  let call :=
    handler_call func_var (TupleVariable [subclass_type_var self])
      (TensorWithTFOverrideVariable self :: args) kwargs self in
  user_function call (output tx1) = (Return res, out2) →
  is_NotImplemented res = true →
  call_method self name args kwargs tx =
  (Raise (UnsupportedDispatch func_var
            (TensorWithTFOverrideVariable self :: args) kwargs),
   mkTx out2 (inlined tx ++ [call])).
Proof.
  intros Hon Hno Hbuild Hsame call Hrun Hres.
  rewrite (call_method_enabled _ _ _ _ _ Hon Hno).
  unfold method_trampoline, bind. rewrite Hbuild.
  unfold dispatch_torch_function.
  rewrite (overloaded_args_same_type _ _ _ Hsame). simpl.
  unfold bind, tf_call_torch_function, call_torch_function,
    inline_user_function_return.
  fold (handler_call func_var (TupleVariable [subclass_type_var self])
          (TensorWithTFOverrideVariable self :: args) kwargs self). fold call.
  rewrite Hrun, Hres. simpl.
  by rewrite (build_func_var_log _ _ _ _ _ Hbuild).
Qed.

(** X11: with the flag set, calling a method that the lookup of the branch
    does not find (on the declared type for a value with a source, on
    [torch.Tensor] for one without) raises [AttributeError], not
    [Unsupported]; no handler is called and nothing changes. *)
Theorem call_method_missing_attribute self name args kwargs tx :
  torch_function_enabled (output tx) = true →
  match source self with
  | Some _ => getattr_static (class_type self) name = None
  | None => getattr_Tensor name = None
  end →
  call_method self name args kwargs tx = (Raise (AttributeError name), tx).
Proof.
  intros Hon Hmiss.
  assert (_is_attr_overidden self name = false) as Hno.
  { unfold _is_attr_overidden. destruct (source self).
    - by rewrite Hmiss.
    - rewrite Hmiss. by destruct (getattr_static _ _). }
  rewrite (call_method_enabled _ _ _ _ _ Hon Hno).
  unfold method_trampoline, build_func_var, python_type, bind.
  destruct (source self); by rewrite Hmiss.
Qed.


(** X12: with the flag set, reading an attribute that passes the checks but
    whose object has no [__get__] raises [AttributeError]; no handler is
    called and nothing changes. *)
Theorem var_getattr_not_a_descriptor self name base_attr tx :
  torch_function_enabled (output tx) = true →
  name ∉ banned_attrs →
  getattr_Tensor name = Some base_attr →
  _is_attr_overidden self name = false →
  dunder_get base_attr = None →
  source self = None ∨ is_Some (getattr_static (class_type self) name) →
  var_getattr self name tx = (Raise (AttributeError "__get__"), tx).
Proof.
  intros Hon Hnb Hbase Hno Hget Hfound.
  rewrite (var_getattr_enabled _ _ _ _ Hon Hnb Hbase Hno).
  unfold getattr_trampoline, build_get_fn, python_type, bind.
  destruct (source self) as [src|].
  - destruct Hfound as [|[attr Hattr]]; [done|].
    pose proof (not_overridden_same _ _ _ _ Hno Hattr Hbase) as ->.
    rewrite Hattr. simpl. by rewrite Hget.
  - rewrite Hbase. simpl. by rewrite Hget.
Qed.

(** X5: [from_tensor_var] refuses a tensor variable whose class is not
    [torch.Tensor]: the assertion fails and nothing is registered. *)
Theorem from_tensor_var_rejects_other_class tensor_var cls fn tx :
  tv_class_type tensor_var ≠ torch_Tensor →
  from_tensor_var tensor_var cls fn tx =
  (Raise (AssertionError
     "invalid class type in TensorWithTFOverrideVariable.from_tensor_var"),
   tx).
Proof.
  intros Hne. unfold from_tensor_var. by rewrite bool_decide_eq_false_2.
Qed.

(** X6: a successful [from_tensor_var] keeps the source and the rest of the
    tensor variable, leaves the flag and the log alone, and only ever adds
    to the global scope: every name bound before is bound to the same
    object after, the mangled name included if it was bound. *)
Theorem from_tensor_var_keeps_scope tensor_var cls fn tx :
  tv_class_type tensor_var = torch_Tensor →
  let var :=
    mkTFOverride cls fn (tv_source tensor_var) (tv_proxy tensor_var) in
  ∃ tx1,
    from_tensor_var tensor_var cls fn tx = (Return var, tx1) ∧
    torch_function_enabled (output tx1) = torch_function_enabled (output tx) ∧
    inlined tx1 = inlined tx ∧
    global_scope (output tx) ⊆ global_scope (output tx1) ∧
    ∀ name, name ≠ global_mangled_class_name var →
            global_scope (output tx1) !! name = global_scope (output tx) !! name.
Proof.
  intros HT var.
  destruct (global_scope (output tx) !! global_mangled_class_name var)
    as [g|] eqn:Hlook.
  - exists tx. split_and!; try done.
    apply from_tensor_var_bound; [done|]. fold var. by rewrite Hlook.
  - eexists. split; [by apply from_tensor_var_fresh|]. fold var. simpl.
    split_and!; [done|done|by apply insert_subseteq|].
    intros name Hne. by rewrite lookup_insert_ne.
Qed.
End trampoline_extras.

(** * Strings cut at a separator *)

Lemma string_has_app c s t :
  string_has c (s +:+ t) = string_has c s || string_has c t.
Proof.
  induction s as [|c' s IH]; simpl; [done|]. by rewrite IH, orb_assoc.
Qed.

(** A separator that the parts after it do not hold is the last one. *)
Lemma app_sep_inj_last sep n1 : ∀ n2 d1 d2,
  string_has sep d1 = false → string_has sep d2 = false →
  n1 +:+ String sep d1 = n2 +:+ String sep d2 → n1 = n2 ∧ d1 = d2.
Proof.
  induction n1 as [|c n1 IH]; intros [|c' n2] d1 d2 Hd1 Hd2; simpl.
  - by intros [= ->].
  - intros [= <- ->]. rewrite string_has_app in Hd1. simpl in Hd1.
    rewrite bool_decide_eq_true_2, orb_true_r in Hd1 by done. done.
  - intros [= -> <-]. rewrite string_has_app in Hd2. simpl in Hd2.
    rewrite bool_decide_eq_true_2, orb_true_r in Hd2 by done. done.
  - intros [= <- Heq]. destruct (IH n2 d1 d2 Hd1 Hd2 Heq) as [-> ->]. done.
Qed.

(** A separator that the parts before it do not hold is the first one. *)
Lemma app_sep_inj_first sep c1 : ∀ c2 k1 k2,
  string_has sep c1 = false → string_has sep c2 = false →
  c1 +:+ String sep k1 = c2 +:+ String sep k2 → c1 = c2 ∧ k1 = k2.
Proof.
  induction c1 as [|c c1 IH]; intros [|c' c2] k1 k2 Hc1 Hc2; simpl in *.
  - by intros [= ->].
  - intros [= <- _]. by rewrite bool_decide_eq_true_2 in Hc2.
  - intros [= -> _]. by rewrite bool_decide_eq_true_2 in Hc1.
  - intros [= <- Heq].
    apply orb_false_iff in Hc1 as [_ Hc1]. apply orb_false_iff in Hc2 as [_ Hc2].
    destruct (IH c2 k1 k2 Hc1 Hc2 Heq) as [-> ->]. done.
Qed.

Lemma pretty_N_go_no_underscore x : ∀ s,
  string_has "_" s = false → string_has "_" (pretty_N_go x s) = false.
Proof.
  induction (N.lt_wf_0 x) as [x _ IH]; intros s Hs.
  assert (x = 0 ∨ 0 < x)%N as [->|Hpos] by lia.
  - by rewrite pretty_N_go_0.
  - rewrite pretty_N_go_step by done. apply IH; [by apply N.div_lt|].
    simpl. rewrite Hs, orb_false_r. apply bool_decide_eq_false.
    unfold pretty_N_char. by repeat case_match.
Qed.

Lemma pretty_N_no_underscore (x : N) : string_has "_" (pretty x) = false.
Proof.
  unfold pretty, pretty_N. case_decide; [done|].
  by apply pretty_N_go_no_underscore.
Qed.

(** X8: the mangled name tells the class: two values whose classes differ,
    in name or in identity, never share a mangled name, whatever underscores
    and digits the class names hold. *)
Theorem mangled_name_injective v1 v2 :
  class_type v1 ≠ class_type v2 →
  global_mangled_class_name v1 ≠ global_mangled_class_name v2.
Proof.
  intros Hne Heq. apply Hne. unfold global_mangled_class_name in Heq.
  apply String.app_inj in Heq. simpl in Heq.
  apply app_sep_inj_last in Heq as [Hname Hid];
    [|apply pretty_N_no_underscore..].
  apply pretty_N_inj in Hid.
  destruct (class_type v1), (class_type v2). simpl in *. by subst.
Qed.

(** * The template kernel *)

Section kernel_facts.
Context `{KernelEnv}.

Lemma split_length sep s : length (split sep s) = S (count_char sep s).
Proof.
  induction s as [|c s IH]; simpl; [done|].
  case_bool_decide; simpl; [by rewrite IH|].
  destruct (split sep s); simpl in *; lia.
Qed.

Lemma rstrip_head c s :
  is_space c = false → ∃ r, rstrip (String c s) = String c r.
Proof.
  intros Hc. simpl. destruct (rstrip s); rewrite ?Hc; eauto.
Qed.

Lemma rstrip_idemp s : rstrip (rstrip s) = rstrip s.
Proof.
  induction s as [|c s IH]; simpl; [done|].
  destruct (rstrip s) as [|c' r] eqn:Hr.
  - destruct (is_space c) eqn:Hc; simpl; [done|]. by rewrite Hc.
  - simpl in IH. simpl. destruct (rstrip r) as [|c'' r'] eqn:Hr'.
    + destruct (is_space c') eqn:Hc'; [done|]. by injection IH as ->.
    + by rewrite IH.
Qed.

Lemma lstrip_head s :
  lstrip s = EmptyString ∨ ∃ c r, lstrip s = String c r ∧ is_space c = false.
Proof.
  induction s as [|c s IH]; simpl; [by left|].
  destruct (is_space c) eqn:Hc; [done|]. right. eauto.
Qed.

Lemma strip_idemp s : strip (strip s) = strip s.
Proof.
  unfold strip. destruct (lstrip_head s) as [->|(c & r & -> & Hc)]; [done|].
  destruct (rstrip_head c r Hc) as [r' Hr']. rewrite Hr'. simpl lstrip.
  rewrite Hc, <- Hr'. apply rstrip_idemp.
Qed.

Lemma dict_get_set_eq {K V} `{EqDecision K} (k : K) (v : V) d :
  dict_get k (dict_set k v d) = Some v.
Proof.
  induction d as [|[k' v'] d IH]; simpl.
  - by rewrite decide_True.
  - destruct (decide (k' = k)) as [->|Hne]; simpl.
    + by rewrite decide_True.
    + by rewrite decide_False.
Qed.

Lemma dict_get_set_ne {K V} `{EqDecision K} (k k' : K) (v : V) d :
  k ≠ k' → dict_get k' (dict_set k v d) = dict_get k' d.
Proof.
  intros Hne. induction d as [|[k0 v0] d IH]; simpl.
  - by rewrite decide_False.
  - destruct (decide (k0 = k)) as [->|Hne0]; simpl.
    + by rewrite !decide_False.
    + destruct (decide (k0 = k')); [done|exact IH].
Qed.

Lemma bind_inputs_ok names input_names : ∀ i d,
  i + length input_names ≤ length names →
  ∃ d', bind_inputs names i input_names d = (KReturn tt, d').
Proof.
  induction input_names as [|[n|] rest IH]; intros i d Hlen; simpl in *;
    [by eauto| |apply IH; lia].
  destruct (lookup_lt_is_Some_2 names i) as [name ->]; [lia|].
  apply IH. lia.
Qed.

Lemma bind_outputs_ok names offset output_names : ∀ i d,
  i + offset + length output_names ≤ length names →
  ∃ d', bind_outputs names offset i output_names d = (KReturn tt, d').
Proof.
  induction output_names as [|n rest IH]; intros i d Hlen; simpl in *;
    [by eauto|].
  destruct (lookup_lt_is_Some_2 names (i + offset)) as [name ->]; [lia|].
  apply IH. lia.
Qed.

Lemma bind_inputs_other names input_names n : ∀ i d r d',
  Some n ∉ input_names →
  bind_inputs names i input_names d = (r, d') →
  dict_get n d' = dict_get n d.
Proof.
  induction input_names as [|[m|] rest IH]; intros i d r d' Hnot; simpl.
  - by intros [= _ <-].
  - apply not_elem_of_cons in Hnot as [Hne Hnot].
    destruct (names !! i) as [name|]; [|by intros [= _ <-]].
    intros Hrun. rewrite (IH _ _ _ _ Hnot Hrun).
    apply dict_get_set_ne. congruence.
  - apply not_elem_of_cons in Hnot as [_ Hnot]. by apply IH.
Qed.

Lemma bind_outputs_other names offset output_names n : ∀ i d r d',
  n ∉ output_names →
  bind_outputs names offset i output_names d = (r, d') →
  dict_get n d' = dict_get n d.
Proof.
  induction output_names as [|m rest IH]; intros i d r d' Hnot; simpl.
  - by intros [= _ <-].
  - apply not_elem_of_cons in Hnot as [Hne Hnot].
    destruct (names !! (i + offset)) as [name|]; [|by intros [= _ <-]].
    intros Hrun. rewrite (IH _ _ _ _ Hnot Hrun).
    by apply dict_get_set_ne.
Qed.

Lemma bind_inputs_last names input_names n : ∀ i j d d',
  input_names !! j = Some (Some n) →
  Some n ∉ drop (S j) input_names →
  bind_inputs names i input_names d = (KReturn tt, d') →
  dict_get n d' = strip <$> names !! (i + j).
Proof.
  induction input_names as [|m rest IH]; intros i j d d' Hj Hlast; [done|].
  destruct j as [|j]; simpl in Hj, Hlast.
  - injection Hj as ->. simpl. rewrite Nat.add_0_r.
    destruct (names !! i) as [name|]; [|done]. intros Hrun.
    rewrite (bind_inputs_other _ _ _ _ _ _ _ Hlast Hrun).
    by rewrite dict_get_set_eq.
  - destruct m as [m|]; simpl;
      [destruct (names !! i) as [name|]; [|done]|];
      intros Hrun; replace (i + S j) with (S i + j) by lia;
      by eapply IH.
Qed.

Lemma bind_outputs_last names offset output_names n : ∀ i j d d',
  output_names !! j = Some n →
  n ∉ drop (S j) output_names →
  bind_outputs names offset i output_names d = (KReturn tt, d') →
  dict_get n d' = strip <$> names !! (i + j + offset).
Proof.
  induction output_names as [|m rest IH]; intros i j d d' Hj Hlast; [done|].
  destruct j as [|j]; simpl in Hj, Hlast.
  - injection Hj as ->. simpl. rewrite Nat.add_0_r.
    destruct (names !! (i + offset)) as [name|]; [|done]. intros Hrun.
    rewrite (bind_outputs_other _ _ _ _ _ _ _ _ Hlast Hrun).
    by rewrite dict_get_set_eq.
  - simpl. destruct (names !! (i + offset)) as [name|]; [|done].
    intros Hrun. replace (i + S j + offset) with (S i + j + offset) by lia.
    by eapply IH.
Qed.

Lemma bind_inputs_stripped names input_names n : ∀ i d d',
  Some n ∈ input_names →
  bind_inputs names i input_names d = (KReturn tt, d') →
  ∃ v, dict_get n d' = Some v ∧ strip v = v.
Proof.
  induction input_names as [|m rest IH]; intros i d d' Hin.
  { by apply elem_of_nil in Hin. }
  destruct (decide (Some n ∈ rest)) as [Hrest|Hrest].
  - destruct m as [m|]; simpl.
    + destruct (names !! i) as [name|]; [|done]. by apply IH.
    + by apply IH.
  - apply elem_of_cons in Hin as [<-|Hin]; [|done]. simpl.
    destruct (names !! i) as [name|]; [|done]. intros Hrun.
    rewrite (bind_inputs_other _ _ _ _ _ _ _ Hrest Hrun), dict_get_set_eq.
    eexists. split; [done|apply strip_idemp].
Qed.

Lemma bind_outputs_stripped names offset output_names n : ∀ i d d',
  n ∈ output_names →
  bind_outputs names offset i output_names d = (KReturn tt, d') →
  ∃ v, dict_get n d' = Some v ∧ strip v = v.
Proof.
  induction output_names as [|m rest IH]; intros i d d' Hin.
  { by apply elem_of_nil in Hin. }
  destruct (decide (n ∈ rest)) as [Hrest|Hrest]; simpl.
  - destruct (names !! (i + offset)) as [name|]; [|done]. by apply IH.
  - apply elem_of_cons in Hin as [<-|Hin]; [|done].
    destruct (names !! (i + offset)) as [name|]; [|done]. intros Hrun.
    rewrite (bind_outputs_other _ _ _ _ _ _ _ _ Hrest Hrun), dict_get_set_eq.
    eexists. split; [done|apply strip_idemp].
Qed.

Lemma bind_sizevars_other symbols s : ∀ d,
  s ∉ symbols → dict_get s (bind_sizevars symbols d) = dict_get s d.
Proof.
  unfold bind_sizevars.
  induction symbols as [|x symbols IH]; intros d Hnot; simpl; [done|].
  apply not_elem_of_cons in Hnot as [Hne Hnot].
  rewrite IH by done. by apply dict_get_set_ne.
Qed.

Lemma bind_sizevars_bound symbols s : ∀ d,
  s ∈ symbols →
  dict_get s (bind_sizevars symbols d) = Some ("k" +:+ sym_name s).
Proof.
  induction symbols as [|x symbols IH]; intros d Hin.
  { by apply elem_of_nil in Hin. }
  destruct (decide (s ∈ symbols)) as [Hrest|Hrest].
  - by apply (IH (dict_set x ("k" +:+ sym_name x) d)).
  - apply elem_of_cons in Hin as [->|Hin]; [|done].
    pose proof (bind_sizevars_other symbols x
                  (dict_set x ("k" +:+ sym_name x) d) Hrest) as Hother.
    unfold bind_sizevars in *. simpl. rewrite Hother.
    apply dict_get_set_eq.
Qed.
End kernel_facts.

Section kernel_extras.
Context `{KernelEnv}.

Lemma def_kernel_run kernel_name inputs outputs names_str args :
  length inputs + length outputs = length (split "," names_str) →
  ∃ ins outs,
    bind_inputs (split "," names_str) 0 (fmap (M:=option) get_name <$> inputs)
      (input_buffers args) = (KReturn tt, ins) ∧
    bind_outputs (split "," names_str) (length inputs) 0 (get_name <$> outputs)
      (output_buffers args) = (KReturn tt, outs) ∧
    def_kernel kernel_name inputs outputs names_str args =
    match sorted_symbols
            (collect_symbols (omap id inputs) ++ collect_symbols outputs) with
    | None => (KRaise TypeError, mkKernelArgs ins outs (sizevars args))
    | Some sorted =>
        let args' := mkKernelArgs ins outs
                       (bind_sizevars sorted (sizevars args)) in
        (KReturn ("void " +:+ kernel_name +:+ "("
                  +:+ join ", " (cpp_argdefs args').1.1 +:+ ")"), args')
    end.
Proof.
  intros Hlen. unfold def_kernel.
  rewrite bool_decide_eq_true_2 by by rewrite length_app, !length_fmap.
  destruct (bind_inputs_ok (split "," names_str)
              (fmap (M:=option) get_name <$> inputs) 0 (input_buffers args))
    as [ins Hins]; [rewrite length_fmap; lia|].
  destruct (bind_outputs_ok (split "," names_str) (length inputs)
              (get_name <$> outputs) 0 (output_buffers args))
    as [outs Houts]; [rewrite !length_fmap; lia|].
  exists ins, outs. rewrite Hins, length_fmap, Houts. done.
Qed.

Lemma def_kernel_success kernel_name inputs outputs names_str args sig args' :
  def_kernel kernel_name inputs outputs names_str args = (KReturn sig, args') →
  length inputs + length outputs = S (count_char "," names_str) ∧
  ∃ sorted,
    sorted_symbols
      (collect_symbols (omap id inputs) ++ collect_symbols outputs)
    = Some sorted ∧
    sizevars args' = bind_sizevars sorted (sizevars args).
Proof.
  intros Hrun. rewrite <- (split_length "," names_str).
  assert (length inputs + length outputs = length (split "," names_str))
    as Hlen.
  { revert Hrun. unfold def_kernel. case_bool_decide as Hlen; [|done].
    by rewrite length_app, !length_fmap in Hlen. }
  split; [done|].
  destruct (def_kernel_run kernel_name inputs outputs names_str args Hlen)
    as (ins & outs & _ & _ & Heq).
  rewrite Heq in Hrun.
  destruct (sorted_symbols _) as [sorted|]; [|done].
  injection Hrun as _ <-. by exists sorted.
Qed.

(** X13: [def_kernel] needs as many comma-separated names as there are
    inputs and outputs, [None] inputs included.  With another number the
    assertion fails before anything is bound.  With that number no index is
    ever out of range: the call returns the signature when [sorted] returns,
    and when [sorted] raises, its [TypeError] comes out, the buffers being
    bound by then and the size variables untouched. *)
Theorem def_kernel_names_count kernel_name inputs outputs names_str args :
  let unique_sizevars :=
    collect_symbols (omap id inputs) ++ collect_symbols outputs in
  (length inputs + length outputs ≠ S (count_char "," names_str) →
   def_kernel kernel_name inputs outputs names_str args =
   (KRaise (NamesAssertionError
              ((fmap (M:=option) get_name <$> inputs)
               ++ (Some <$> (get_name <$> outputs)))
              names_str),
    args)) ∧
  (length inputs + length outputs = S (count_char "," names_str) →
   is_Some (sorted_symbols unique_sizevars) →
   ∃ args',
     def_kernel kernel_name inputs outputs names_str args =
     (KReturn ("void " +:+ kernel_name +:+ "("
               +:+ join ", " (cpp_argdefs args').1.1 +:+ ")"),
      args')) ∧
  (length inputs + length outputs = S (count_char "," names_str) →
   sorted_symbols unique_sizevars = None →
   ∃ ins outs,
     def_kernel kernel_name inputs outputs names_str args =
     (KRaise TypeError, mkKernelArgs ins outs (sizevars args))).
Proof.
  intros unique_sizevars. rewrite <- (split_length "," names_str).
  split_and!.
  - intros Hne. unfold def_kernel. rewrite bool_decide_eq_false_2; [done|].
    by rewrite length_app, !length_fmap.
  - intros Hlen [sorted Hsorted].
    destruct (def_kernel_run kernel_name inputs outputs names_str args Hlen)
      as (ins & outs & _ & _ & ->).
    fold unique_sizevars. rewrite Hsorted. by eexists.
  - intros Hlen Hsorted.
    destruct (def_kernel_run kernel_name inputs outputs names_str args Hlen)
      as (ins & outs & _ & _ & ->).
    fold unique_sizevars. rewrite Hsorted. by exists ins, outs.
Qed.

Lemma not_elem_of_drop_names {B C} (f : B → C) (l : list B) j n :
  (∀ j' b', j < j' → l !! j' = Some b' → f b' ≠ n) →
  n ∉ drop (S j) (f <$> l).
Proof.
  intros Hlater Hin. rewrite <- fmap_drop in Hin.
  apply list_elem_of_fmap in Hin as (b' & -> & Hin).
  apply list_elem_of_lookup in Hin as [k Hk]. rewrite lookup_drop in Hk.
  apply (Hlater (S j + k) b'); [lia|done|done].
Qed.

(** X14: once the assertion of [def_kernel] has passed, whether the call
    then returns or [sorted] raises, the name of the [j]-th input is bound,
    among the input buffers, to the [j]-th comma-separated name with the
    blanks around it removed, and the name of the [j]-th output, among the
    output buffers, to the name [j] places after those of the inputs; a
    [None] input uses up a name and binds nothing; a buffer that occurs
    again later in the same list is bound by its last occurrence; names of
    no buffer keep the binding they had. *)
Theorem def_kernel_binds_names
    kernel_name inputs outputs names_str args r args' :
  length inputs + length outputs = S (count_char "," names_str) →
  def_kernel kernel_name inputs outputs names_str args = (r, args') →
  (∀ j b, inputs !! j = Some (Some b) →
     (∀ j' b', j < j' → inputs !! j' = Some (Some b') →
               get_name b' ≠ get_name b) →
     ∃ piece, split "," names_str !! j = Some piece ∧
       dict_get (get_name b) (input_buffers args') = Some (strip piece)) ∧
  (∀ j b, outputs !! j = Some b →
     (∀ j' b', j < j' → outputs !! j' = Some b' → get_name b' ≠ get_name b) →
     ∃ piece, split "," names_str !! (length inputs + j) = Some piece ∧
       dict_get (get_name b) (output_buffers args') = Some (strip piece)) ∧
  (∀ n, (∀ b, Some b ∈ inputs → get_name b ≠ n) →
        dict_get n (input_buffers args') = dict_get n (input_buffers args)) ∧
  (∀ n, (∀ b, b ∈ outputs → get_name b ≠ n) →
        dict_get n (output_buffers args') = dict_get n (output_buffers args)).
Proof.
  intros Hlen Hrun. rewrite <- (split_length "," names_str) in Hlen.
  destruct (def_kernel_run kernel_name inputs outputs names_str args Hlen)
    as (ins & outs & Hins & Houts & Hdef).
  assert (input_buffers args' = ins ∧ output_buffers args' = outs)
    as [-> ->].
  { rewrite Hdef in Hrun. destruct (sorted_symbols _);
      by injection Hrun as _ <-. }
  clear Hdef Hrun.
  split_and!.
  - intros j b Hj Hlater.
    destruct (lookup_lt_is_Some_2 (split "," names_str) j) as [piece Hpiece].
    { apply lookup_lt_Some in Hj. lia. }
    exists piece. split; [done|].
    assert (Some (get_name b)
            ∉ drop (S j) (fmap (M:=option) get_name <$> inputs)) as Hlast.
    { apply (not_elem_of_drop_names (fmap (M:=option) get_name)).
      intros j' [b'|] Hlt Hj'; simpl; [|done].
      intros [= Heq]. by apply (Hlater j' b'). }
    assert ((fmap (M:=option) get_name <$> inputs) !! j
            = Some (Some (get_name b))) as Hnamed
      by by rewrite list_lookup_fmap, Hj.
    rewrite (bind_inputs_last _ _ _ _ _ _ _ Hnamed Hlast Hins).
    simpl. by rewrite Hpiece.
  - intros j b Hj Hlater.
    destruct (lookup_lt_is_Some_2 (split "," names_str) (length inputs + j))
      as [piece Hpiece].
    { apply lookup_lt_Some in Hj. lia. }
    exists piece. split; [done|].
    assert (get_name b ∉ drop (S j) (get_name <$> outputs)) as Hlast
      by by apply not_elem_of_drop_names.
    assert ((get_name <$> outputs) !! j = Some (get_name b)) as Hnamed
      by by rewrite list_lookup_fmap, Hj.
    rewrite (bind_outputs_last _ _ _ _ _ _ _ _ Hnamed Hlast Houts).
    simpl. by rewrite (Nat.add_comm j), Hpiece.
  - intros n Hnot. eapply bind_inputs_other; [|exact Hins].
    intros Hin. apply list_elem_of_fmap in Hin as ([b|] & Heq & Hin); [|done].
    injection Heq as Heq. by apply (Hnot b).
  - intros n Hnot. eapply bind_outputs_other; [|exact Houts].
    intros Hin. apply list_elem_of_fmap in Hin as (b & Heq & Hin).
    by apply (Hnot b).
Qed.

(** X15: once the assertion of [def_kernel] has passed, whether the call
    then returns or [sorted] raises, every buffer handed over ends up bound,
    and the name it is bound to has no blank at either end: stripping it
    again changes nothing. *)
Theorem def_kernel_names_stripped
    kernel_name inputs outputs names_str args r args' :
  length inputs + length outputs = S (count_char "," names_str) →
  def_kernel kernel_name inputs outputs names_str args = (r, args') →
  (∀ b, Some b ∈ inputs →
        ∃ v, dict_get (get_name b) (input_buffers args') = Some v ∧
             strip v = v) ∧
  (∀ b, b ∈ outputs →
        ∃ v, dict_get (get_name b) (output_buffers args') = Some v ∧
             strip v = v).
Proof.
  intros Hlen Hrun. rewrite <- (split_length "," names_str) in Hlen.
  destruct (def_kernel_run kernel_name inputs outputs names_str args Hlen)
    as (ins & outs & Hins & Houts & Hdef).
  assert (input_buffers args' = ins ∧ output_buffers args' = outs)
    as [-> ->].
  { rewrite Hdef in Hrun. destruct (sorted_symbols _);
      by injection Hrun as _ <-. }
  clear Hdef Hrun.
  split.
  - intros b Hb. eapply bind_inputs_stripped; [|exact Hins].
    apply list_elem_of_fmap. by exists (Some b).
  - intros b Hb. eapply bind_outputs_stripped; [|exact Houts].
    apply list_elem_of_fmap. by exists b.
Qed.

(** X16: given that [sorted], when it returns, returns the elements of the
    set it is handed: after a [def_kernel] that returns, every symbol that
    is free in a size or a stride of an input that is not [None], or of an
    output, is bound among the size variables to its own name with a [k]
    before it, and every other symbol keeps the binding it had. *)
Theorem def_kernel_binds_sizevars
    kernel_name inputs outputs names_str args sig args' :
  sorted_symbols_law →
  def_kernel kernel_name inputs outputs names_str args = (KReturn sig, args') →
  ∀ s,
    (∃ b e, (Some b ∈ inputs ∨ b ∈ outputs) ∧
            e ∈ get_size b ++ get_stride b ∧ s ∈ free_symbols e) ∧
    dict_get s (sizevars args') = Some ("k" +:+ sym_name s)
    ∨
    (¬ ∃ b e, (Some b ∈ inputs ∨ b ∈ outputs) ∧
              e ∈ get_size b ++ get_stride b ∧ s ∈ free_symbols e) ∧
    dict_get s (sizevars args') = dict_get s (sizevars args).
Proof.
  intros Hlaw Hrun s.
  apply def_kernel_success in Hrun as (Hlen & sorted & Hsorted & ->).
  assert (s ∈ collect_symbols (omap id inputs) ++ collect_symbols outputs ↔
          ∃ b e, (Some b ∈ inputs ∨ b ∈ outputs) ∧
                 e ∈ get_size b ++ get_stride b ∧ s ∈ free_symbols e)
    as Hcollect.
  { unfold collect_symbols. rewrite elem_of_app, !list_elem_of_bind. split.
    - intros [(b & Hs & Hb)|(b & Hs & Hb)];
        apply list_elem_of_bind in Hs as (e & Hs & He); exists b, e;
        (split; [|done]); [left|by right].
      apply list_elem_of_omap in Hb as (ob & Hob & Hid). simpl in Hid.
      by subst.
    - intros (b & e & [Hb|Hb] & He & Hs); [left|right]; exists b;
        (split; [apply list_elem_of_bind; by exists e|]); [|done].
      apply list_elem_of_omap. by exists (Some b). }
  destruct (decide (s ∈ collect_symbols (omap id inputs)
                        ++ collect_symbols outputs)) as [Hin|Hnot].
  - left. split; [by apply Hcollect|].
    apply bind_sizevars_bound. by apply (Hlaw _ sorted s Hsorted).
  - right. split; [by rewrite <- Hcollect|].
    apply bind_sizevars_other. intros Hs. apply Hnot.
    by apply (Hlaw _ sorted s Hsorted).
Qed.

(** X17: [dtype] and [acc_dtype] agree on every buffer; when they return,
    they return ["float"], and they return exactly for [float32],
    [bfloat16] and [float16], raising [NotImplementedError] with the dtype
    otherwise. *)
Theorem dtype_acc_dtype node :
  dtype node = acc_dtype node ∧
  (∀ t, dtype node = KReturn t → t = "float") ∧
  ((get_dtype node ∈ [float32; bfloat16; float16] ∧
    dtype node = KReturn "float")
   ∨ ((get_dtype node ∉ [float32; bfloat16; float16]) ∧
      dtype node = KRaise (NotImplementedError (get_dtype node)))).
Proof.
  unfold dtype, acc_dtype. split_and!; [done| |].
  - intros t. destruct (get_dtype node); by intros [= <-].
  - destruct (get_dtype node); first
      [ left; split; [set_solver|done]
      | right; split; [|done];
        intros Hin; repeat (apply elem_of_cons in Hin as [Hin|Hin];
                            [discriminate Hin|]);
        by apply elem_of_nil in Hin ].
Qed.

(** X18: the hash key tells the category and the key of the benchmark
    request apart as long as categories hold no dash: two callers with the
    same hash key then have the same category and the same request key. *)
Theorem hash_key_injective c1 c2 :
  string_has "-" (category c1) = false →
  string_has "-" (category c2) = false →
  hash_key c1 = hash_key c2 →
  category c1 = category c2 ∧ bmreq_hash_key c1 = bmreq_hash_key c2.
Proof.
  unfold hash_key. simpl. intros Hc1 Hc2 Heq.
  by apply app_sep_inj_first in Heq.
Qed.
End kernel_extras.

(** * The functions at work in the small world *)

#[local] Existing Instance ex_world.
#[local] Existing Instance ex_tracer.

Example ex_order_ABA :
  overload_order
    (TensorWithTFOverrideVariable <$> [ex_a; ex_x; ex_a']) [] = [ex_A; ex_X].
Proof. vm_compute. reflexivity. Qed.

Example ex_order_AXB :
  overload_order
    [TensorWithTFOverrideVariable ex_a; OtherVariable 0;
     TensorWithTFOverrideVariable ex_x]
    [("out", TensorWithTFOverrideVariable ex_b)] = [ex_B; ex_A; ex_X].
Proof. vm_compute. reflexivity. Qed.

Lemma ex_wf : @wf_hierarchy ex_world.
Proof.
  split; simpl; unfold ex_issubclass.
  - intros a. by rewrite bool_decide_eq_true_2.
  - intros a b c Hab Hbc.
    repeat case_bool_decide; simpl in *; try done; destruct_and?;
      subst; try done.
  - intros a b Hab Hba.
    repeat case_bool_decide; simpl in *; try done; destruct_and?;
      subst; try done.
Qed.

(** The handler of [ex_a] declines, that of [ex_x] answers: the answer is
    returned and the log holds the two calls, in this order. *)
Lemma dispatch_first_non_sentinel_witness :
  let fn := OtherVariable 9 in
  let args := [TF ex_a; TF ex_x] in
  let types :=
    TupleVariable
      (subclass_type_var <$>
       _get_overloaded_args class_type (overriding_leaves args [])) in
  dispatch_torch_function fn args [] (ex_tx true) =
    (Return (ConstantVariable (PyInt 7)),
     mkTx (mkOutputGraph true ∅)
       (handler_call fn types args [] <$> [ex_a; ex_x])) ∧
  inlined (mkTx (mkOutputGraph true ∅)
            (handler_call fn types args [] <$> [ex_a; ex_x])) =
    inlined (ex_tx true) ++ (handler_call fn types args [] <$> [ex_a] ++ [ex_x]).
Proof.
  intros fn args types.
  apply (proj1 (dispatch_first_non_sentinel fn args [] (ex_tx true))
           [ex_a] ex_x [] (ConstantVariable (PyInt 7))
           (mkTx (mkOutputGraph true ∅) (handler_call fn types args [] <$> [ex_a]))
           (mkTx (mkOutputGraph true ∅)
              (handler_call fn types args [] <$> [ex_a; ex_x])));
    vm_compute; reflexivity.
Defined.

Lemma overload_order_subclass_first_witness :
  overload_order [TF ex_a; TF ex_b] [] = [ex_B; ex_A].
Proof.
  apply (proj1 (overload_order_subclass_first ex_wf [TF ex_a; TF ex_b] []));
    vm_compute; reflexivity.
Defined.

(** [X] comes before [B] in first-occurrence order and neither derives
    from the other, yet [B], moved before its ancestor [A], ends up before
    [X]. *)
Lemma overload_order_unrelated_counterexample :
  ¬ unrelated_keep_first_occurrence_order [TF ex_a; TF ex_x; TF ex_b] [].
Proof.
  intros Hkeep.
  destruct (Hkeep 1 2 ex_X ex_B) as (i' & j' & Hi & Hj & Hlt);
    [vm_compute; reflexivity|vm_compute; reflexivity|lia
    |vm_compute; reflexivity|vm_compute; reflexivity|].
  assert (overload_order [TF ex_a; TF ex_x; TF ex_b] [] = [ex_B; ex_A; ex_X])
    as Horder by (vm_compute; reflexivity).
  rewrite Horder in Hi, Hj.
  destruct i' as [|[|[|i']]]; simplify_eq/=;
    destruct j' as [|[|[|j']]]; simplify_eq/=; lia.
Qed.

Example ex_order_AXYB :
  overload_order [TF ex_a; TF ex_x; TF ex_y; TF ex_b] [] =
  [ex_B; ex_A; ex_X; ex_Y].
Proof. vm_compute. reflexivity. Qed.

(** Leaves of types [A; X; A] give [A; X]; and with leaves of types
    [A; X; Y; B], where [B] is moved to the front, [Y] stays behind [X]. *)
Lemma overload_order_dedup_first_occurrence_witness :
  overload_order [TF ex_a; TF ex_x; TF ex_a'] [] = [ex_A; ex_X] ∧
  ∃ i' j',
    overload_order [TF ex_a; TF ex_x; TF ex_y; TF ex_b] [] !! i' = Some ex_X ∧
    overload_order [TF ex_a; TF ex_x; TF ex_y; TF ex_b] [] !! j' = Some ex_Y ∧
    i' < j'.
Proof.
  split.
  - apply (proj1 (proj2 (proj2 (proj2 (proj2
             (overload_order_dedup_first_occurrence ex_wf
                [TF ex_a; TF ex_x; TF ex_a'] []))))));
      vm_compute; reflexivity.
  - apply (proj1 (proj2 (proj2
             (overload_order_dedup_first_occurrence ex_wf
                [TF ex_a; TF ex_x; TF ex_y; TF ex_b] []))) 1 2 ex_X ex_Y);
      [vm_compute; reflexivity|vm_compute; reflexivity|lia|].
    intros k V Hk HV. destruct k as [|[|k]]; [| |lia];
      vm_compute in HV; injection HV as <-; reflexivity.
Defined.

Lemma can_dispatch_iff_witness :
  can_dispatch_torch_function (ex_tx true) [OtherVariable 0]
    [("out", ConstantVariable PyNone)] = false ∧
  ∀ fn, dispatch_torch_function fn [OtherVariable 0]
          [("out", ConstantVariable PyNone)] (ex_tx true) =
        (Raise (UnsupportedDispatch fn [OtherVariable 0]
                  [("out", ConstantVariable PyNone)]), ex_tx true).
Proof.
  apply (proj2 (can_dispatch_iff (ex_tx true) [OtherVariable 0]
                  [("out", ConstantVariable PyNone)])).
  vm_compute. reflexivity.
Defined.

(** With the flag cleared, reading the banned attribute [grad] still fails,
    where a plain tensor variable answers. *)
Lemma disabled_bypass_counterexample :
  ¬ (∀ (W : PyWorld) (T : Tracer) self name tx,
       torch_function_enabled (output tx) = false →
       var_getattr self name tx = TensorVariable_var_getattr self name tx).
Proof.
  intros Hclaim.
  pose proof (Hclaim ex_world ex_tracer ex_a "grad" (ex_tx false) eq_refl)
    as Hattr.
  vm_compute in Hattr. discriminate Hattr.
Qed.

Lemma disabled_bypass_witness :
  can_dispatch_torch_function (ex_tx false) [TF ex_a] [] = false ∧
  var_getattr ex_a "add" (ex_tx false) =
    if bool_decide ("add" ∈ banned_attrs)
       || negb (bool_decide (is_Some (getattr_Tensor "add")))
    then (Raise (UnsupportedAttribute "add"), ex_tx false)
    else if _is_attr_overidden ex_a "add"
    then (Raise (Unsupported (AccessOverridden "add")), ex_tx false)
    else TensorVariable_var_getattr ex_a "add" (ex_tx false).
Proof.
  apply (disabled_bypass ex_a "add" [TF ex_a] [] (ex_tx false)).
  reflexivity.
Defined.

(** [B] overrides [grad], which is banned: reading [grad] fails with
    [UnsupportedAttribute]. *)
Lemma overridden_attr_rejected_counterexample :
  ¬ (∀ (W : PyWorld) (T : Tracer) self name args kwargs tx,
       overridden_on_type self name →
       (∃ e tx', var_getattr self name tx = (Raise e, tx') ∧
                 is_OverriddenAttributeUnsupported e = true) ∧
       (∃ e tx', call_method self name args kwargs tx = (Raise e, tx') ∧
                 is_OverriddenAttributeUnsupported e = true)).
Proof.
  intros Hclaim.
  destruct (Hclaim ex_world ex_tracer ex_b "grad" [] [] (ex_tx false))
    as [(e & tx' & Hattr & He) _].
  { exists (mkPyObj 201), (mkPyObj 101). split_and!; [done|done|done]. }
  vm_compute in Hattr. injection Hattr as <- <-. discriminate He.
Qed.

Lemma overridden_attr_rejected_witness :
  var_getattr ex_b "add" (ex_tx false) =
    (Raise (Unsupported (AccessOverridden "add")), ex_tx false) ∧
  call_method ex_b "add" [] [] (ex_tx true) =
    (Raise (Unsupported (CallOverridden "add")), ex_tx true).
Proof.
  assert (overridden_on_type ex_b "add") as Hov.
  { exists (mkPyObj 200), (mkPyObj 100).
    split; [reflexivity|split; [reflexivity|discriminate]]. }
  split.
  - apply (proj1 (overridden_attr_rejected ex_b "add" (ex_tx false) Hov)).
    vm_compute. intros Hin.
    repeat (apply elem_of_cons in Hin as [Hin|Hin]; [discriminate Hin|]).
    by apply elem_of_nil in Hin.
  - apply (proj2 (proj2
             (overridden_attr_rejected ex_b "add" (ex_tx true) Hov))).
    reflexivity.
Defined.

Lemma var_getattr_banned_or_missing_witness :
  var_getattr ex_b "grad" (ex_tx true) =
    (Raise (UnsupportedAttribute "grad"), ex_tx true).
Proof.
  apply var_getattr_banned_or_missing. left.
  apply list_elem_of_further, list_elem_of_here.
Defined.

Lemma absent_attr_not_overridden_witness :
  _is_attr_overidden ex_x "custom" = false ∧
  call_method ex_x "custom" [] [] (ex_tx true) =
    method_trampoline ex_x "custom" [] [] (ex_tx true).
Proof.
  destruct (absent_attr_not_overridden ex_x "custom") as (Hno & _ & Hcall).
  { right. reflexivity. }
  split; [exact Hno|]. apply Hcall. reflexivity.
Defined.

(** A method call on a value of type [A] with an argument of type [X]: the
    handlers are given the two types, not the declared type alone. *)
Lemma trampoline_synthetic_call_counterexample :
  ¬ (∀ (W : PyWorld) (T : Tracer) self name args kwargs tx r tx',
       torch_function_enabled (output tx) = true →
       _is_attr_overidden self name = false →
       call_method self name args kwargs tx = (r, tx') →
       ∀ c, c ∈ drop (length (inlined tx)) (inlined tx') →
            single_type_tuple self c).
Proof.
  intros Hclaim.
  set (fn := BuiltVariable (mkPyObj 100) None).
  set (types :=
         TupleVariable [subclass_type_var ex_a; subclass_type_var ex_x]).
  set (args := [TF ex_a; TF ex_x]).
  set (tx' := mkTx (mkOutputGraph true ∅)
                (handler_call fn types args [] <$> [ex_a; ex_x])).
  assert (call_method ex_a "add" [TF ex_x] [] (ex_tx true) =
          (Return (ConstantVariable (PyInt 7)), tx')) as Hrun
    by (vm_compute; reflexivity).
  pose proof (Hclaim ex_world ex_tracer ex_a "add" [TF ex_x] [] (ex_tx true)
                _ _ eq_refl eq_refl Hrun
                (handler_call fn types args [] ex_a)) as Hc.
  simpl in Hc. specialize (Hc (list_elem_of_here _ _)).
  vm_compute in Hc. discriminate Hc.
Qed.

Lemma trampoline_synthetic_call_witness :
  var_getattr ex_a "shape" (ex_tx true) =
    tf_call_torch_function ex_a (BuiltVariable (mkPyObj 1102) None)
      (TupleVariable [subclass_type_var ex_a]) [TF ex_a] [] (ex_tx true) ∧
  call_method ex_a "add" [TF ex_a'] [] (ex_tx true) =
    dispatch_torch_function (BuiltVariable (mkPyObj 100) None)
      [TF ex_a; TF ex_a'] [] (ex_tx true).
Proof.
  destruct (trampoline_synthetic_call ex_a "shape" (mkPyObj 102) (ex_tx true))
    as [Hattr _]; [reflexivity|reflexivity|reflexivity|].
  destruct (trampoline_synthetic_call ex_a "add" (mkPyObj 100) (ex_tx true))
    as [_ Hmeth]; [reflexivity|reflexivity|reflexivity|].
  assert ("shape" ∉ banned_attrs) as Hnb
    by (apply (bool_decide_unpack _); vm_compute; exact I).
  split.
  - apply (Hattr Hnb (BuiltVariable (mkPyObj 1102) None) (ex_tx true) eq_refl).
  - apply (Hmeth [TF ex_a'] [] (BuiltVariable (mkPyObj 100) None)
             (ex_tx true) eq_refl).
Defined.

(** Two classes called [A] get two names, and registering twice is
    registering once. *)
Lemma mangled_name_registration_witness :
  global_mangled_class_name ex_a = "__subclass_A_10" ∧
  global_mangled_class_name ex_a ≠
    global_mangled_class_name
      (mkTFOverride (mkPyClass "A" 99) ex_declining None 0) ∧
  ∃ var tx1,
    from_tensor_var (mkTensorVar ex_Tensor None 0) ex_A ex_declining
      (ex_tx true) = (Return var, tx1) ∧
    global_scope (output tx1) !! "__subclass_A_10" = Some (GClass ex_A) ∧
    from_tensor_var (mkTensorVar ex_Tensor None 0) ex_A ex_declining tx1 =
      (Return var, tx1).
Proof.
  destruct (@mangled_name_registration ex_world) as (_ & Hname & Hdiff & Hreg).
  split; [apply Hname|]. split.
  - apply Hdiff; [reflexivity|discriminate].
  - destruct (Hreg (mkTensorVar ex_Tensor None 0) ex_A ex_declining
                (ex_tx true) eq_refl)
      as (var & tx1 & Hrun & _ & _ & Hfresh & _ & Hagain).
    exists var, tx1. split; [exact Hrun|]. split; [|exact Hagain].
    assert (var = ex_a) as ->.
    { vm_compute in Hrun. by injection Hrun as <- _. }
    rewrite Hfresh by reflexivity. apply lookup_insert_eq.
Defined.

(** * The further properties in the small world *)

#[local] Existing Instance ex_kernel_env.

Example ex_split : split "," "X, W ,,Y" = ["X"; " W "; ""; "Y"].
Proof. reflexivity. Qed.

Example ex_split_empty : split "," "" = [""].
Proof. reflexivity. Qed.

Example ex_strip : strip "  inp 0 	" = "inp 0" ∧ strip "   " = "".
Proof. split; reflexivity. Qed.

Example ex_def_kernel :
  def_kernel "kernel" [Some ex_buf_x; None; Some ex_buf_w] [ex_buf_y]
    "X, B, W, Y" ex_kernel_args =
  (KReturn "void kernel(float* X, float* W, float* Y)",
   mkKernelArgs [("arg0", "X"); ("arg1", "W")] [("buf0", "Y")]
     [(ex_s0, "ks0")]).
Proof. vm_compute. reflexivity. Qed.

(** A buffer with two distinct symbols: the names are bound, then sorting
    the set of symbols raises, and no size variable is bound. *)
Example ex_def_kernel_two_symbols :
  def_kernel "kernel" [Some ex_buf_x] [ex_buf_z] "X, Z" ex_kernel_args =
  (KRaise TypeError, mkKernelArgs [("arg0", "X")] [("buf1", "Z")] []).
Proof. vm_compute. reflexivity. Qed.

Lemma ex_sorted_law : @sorted_symbols_law ex_kernel_env.
Proof.
  intros collected sorted s. simpl.
  rewrite <-(elem_of_remove_dups collected).
  destruct (remove_dups collected) as [|a [|b l]]; intros ?; by simplify_eq.
Qed.

Lemma dispatch_never_returns_sentinel_witness :
  is_NotImplemented (ConstantVariable (PyInt 7)) = false.
Proof.
  set (fn := OtherVariable 9).
  set (args := [TF ex_a; TF ex_x]).
  set (types :=
         TupleVariable [subclass_type_var ex_a; subclass_type_var ex_x]).
  apply (dispatch_never_returns_sentinel fn args [] (ex_tx true)
           (ConstantVariable (PyInt 7))
           (mkTx (mkOutputGraph true ∅)
              (handler_call fn types args [] <$> [ex_a; ex_x]))).
  vm_compute. reflexivity.
Defined.

Lemma dispatch_calls_prefix_witness :
  ∃ invoked,
    invoked `prefix_of`
      _get_overloaded_args class_type
        (overriding_leaves [TF ex_b; TF ex_a] []) ∧
    inlined (dispatch_torch_function (OtherVariable 9)
               [TF ex_b; TF ex_a] [] (ex_tx true)).2 =
    inlined (ex_tx true) ++
      (handler_call (OtherVariable 9)
         (TupleVariable
            (subclass_type_var <$>
             _get_overloaded_args class_type
               (overriding_leaves [TF ex_b; TF ex_a] [])))
         [TF ex_b; TF ex_a] [] <$> invoked) ∧
    NoDup (class_type <$> invoked) ∧
    length invoked ≤ length (overriding_leaves [TF ex_b; TF ex_a] []).
Proof.
  apply (dispatch_calls_prefix (OtherVariable 9) [TF ex_b; TF ex_a] []
           (ex_tx true)
           (dispatch_torch_function (OtherVariable 9)
              [TF ex_b; TF ex_a] [] (ex_tx true)).1).
  by destruct (dispatch_torch_function _ _ _ _).
Defined.

Lemma overload_order_leaves_only_witness :
  overload_order ([TF ex_a] ++ OtherVariable 0 :: [TF ex_b]) [] =
  overload_order ([TF ex_a] ++ [TF ex_b]) [].
Proof.
  apply (proj1 (overload_order_leaves_only [TF ex_a] [TF ex_b] []
                  (OtherVariable 0) "out")).
  reflexivity.
Defined.

Lemma from_tensor_var_rejects_other_class_witness :
  from_tensor_var (mkTensorVar ex_A None 0) ex_B ex_answering (ex_tx true) =
  (Raise (AssertionError
     "invalid class type in TensorWithTFOverrideVariable.from_tensor_var"),
   ex_tx true).
Proof. apply from_tensor_var_rejects_other_class. discriminate. Defined.

Lemma from_tensor_var_keeps_scope_witness :
  ∃ tx1,
    from_tensor_var (mkTensorVar ex_Tensor None 0) ex_A ex_declining
      (ex_tx true) = (Return ex_a, tx1) ∧
    inlined tx1 = [] ∧
    global_scope (output (ex_tx true)) ⊆ global_scope (output tx1).
Proof.
  destruct (@from_tensor_var_keeps_scope ex_world
              (mkTensorVar ex_Tensor None 0) ex_A
              ex_declining (ex_tx true) eq_refl)
    as (tx1 & Hrun & _ & Hlog & Hsub & _).
  exists tx1. split_and!; [exact Hrun|exact Hlog|exact Hsub].
Defined.

Lemma mangled_name_injective_witness :
  global_mangled_class_name ex_a ≠ global_mangled_class_name ex_b.
Proof. apply mangled_name_injective. discriminate. Defined.

Lemma ex_shape_not_banned : "shape" ∉ banned_attrs.
Proof. apply (bool_decide_unpack _). vm_compute. exact I. Qed.

(** The handler of [ex_a] declines: reading [shape] returns the sentinel,
    calling [add] fails. *)
Lemma var_getattr_returns_handler_result_witness :
  var_getattr ex_a "shape" (ex_tx true) =
  (Return (ConstantVariable PyNotImplemented),
   mkTx (mkOutputGraph true ∅)
     (inlined (ex_tx true) ++
      [handler_call (BuiltVariable (mkPyObj 1102) None)
         (TupleVariable [subclass_type_var ex_a]) [TF ex_a] [] ex_a])).
Proof.
  apply (@var_getattr_returns_handler_result ex_world ex_tracer
           ex_a "shape" (mkPyObj 102) (ex_tx true)
           (BuiltVariable (mkPyObj 1102) None) (ex_tx true));
    first [exact ex_shape_not_banned | reflexivity].
Defined.

Lemma call_method_declined_witness :
  call_method ex_a "add" [TF ex_a'] [] (ex_tx true) =
  (Raise (UnsupportedDispatch (BuiltVariable (mkPyObj 100) None)
            [TF ex_a; TF ex_a'] []),
   mkTx (mkOutputGraph true ∅)
     (inlined (ex_tx true) ++
      [handler_call (BuiltVariable (mkPyObj 100) None)
         (TupleVariable [subclass_type_var ex_a]) [TF ex_a; TF ex_a'] []
         ex_a])).
Proof.
  apply (@call_method_declined ex_world ex_tracer
           ex_a "add" [TF ex_a'] [] (ex_tx true)
           (BuiltVariable (mkPyObj 100) None) (ex_tx true)
           (ConstantVariable PyNotImplemented));
    first [reflexivity | by repeat constructor].
Defined.

Lemma call_method_missing_attribute_witness :
  call_method ex_a "nope" [] [] (ex_tx true) =
  (Raise (AttributeError "nope"), ex_tx true).
Proof.
  apply (@call_method_missing_attribute ex_world ex_tracer); reflexivity.
Defined.


Lemma var_getattr_not_a_descriptor_witness :
  @var_getattr ex_world_plain_shape ex_tracer ex_a "shape" (ex_tx true) =
  (Raise (AttributeError "__get__"), ex_tx true).
Proof.
  apply (@var_getattr_not_a_descriptor ex_world_plain_shape ex_tracer
           ex_a "shape" (mkPyObj 102) (ex_tx true));
    first [exact ex_shape_not_banned | reflexivity | by left].
Defined.

(** Three names for two buffers: the assertion fails; two names and one
    symbol: the signature is returned; two names and two symbols: sorting
    raises. *)
Lemma def_kernel_names_count_witness :
  def_kernel "kernel" [Some ex_buf_x] [ex_buf_y] "X, W, Y" ex_kernel_args =
    (KRaise (NamesAssertionError [Some "arg0"; Some "buf0"] "X, W, Y"),
     ex_kernel_args) ∧
  (∃ args',
    def_kernel "kernel" [Some ex_buf_x] [ex_buf_y] "X, Y" ex_kernel_args =
    (KReturn ("void kernel("
              +:+ join ", " (cpp_argdefs args').1.1 +:+ ")"), args')) ∧
  (∃ ins outs,
    def_kernel "kernel" [Some ex_buf_x] [ex_buf_z] "X, Z" ex_kernel_args =
    (KRaise TypeError, mkKernelArgs ins outs (sizevars ex_kernel_args))).
Proof.
  split_and!.
  - apply (proj1 (def_kernel_names_count "kernel" [Some ex_buf_x] [ex_buf_y]
                    "X, W, Y" ex_kernel_args)).
    vm_compute. lia.
  - apply (proj1 (proj2 (def_kernel_names_count "kernel" [Some ex_buf_x]
                           [ex_buf_y] "X, Y" ex_kernel_args))).
    + reflexivity.
    + vm_compute. eauto.
  - apply (proj2 (proj2 (def_kernel_names_count "kernel" [Some ex_buf_x]
                           [ex_buf_z] "X, Z" ex_kernel_args))).
    + reflexivity.
    + reflexivity.
Defined.

Lemma def_kernel_binds_names_witness :
  ∃ piece,
    split "," "X, B, W, Y" !! 2 = Some piece ∧
    dict_get "arg1"
      (input_buffers
         (def_kernel "kernel" [Some ex_buf_x; None; Some ex_buf_w] [ex_buf_y]
            "X, B, W, Y" ex_kernel_args).2) = Some (strip piece).
Proof.
  apply (proj1 (def_kernel_binds_names "kernel"
                  [Some ex_buf_x; None; Some ex_buf_w] [ex_buf_y]
                  "X, B, W, Y" ex_kernel_args
                  (KReturn "void kernel(float* X, float* W, float* Y)")
                  _ eq_refl ex_def_kernel) 2 ex_buf_w eq_refl).
  intros j' b' Hlt Hj'. destruct j' as [|[|[|j']]]; simplify_eq/=; lia.
Defined.

(** The names are bound, stripped, also when sorting the symbols raises. *)
Lemma def_kernel_names_stripped_witness :
  ∃ v,
    dict_get "buf1"
      (output_buffers
         (def_kernel "kernel" [Some ex_buf_x] [ex_buf_z] "X, Z"
            ex_kernel_args).2) = Some v ∧
    strip v = v.
Proof.
  apply (proj2 (def_kernel_names_stripped "kernel"
                  [Some ex_buf_x] [ex_buf_z] "X, Z" ex_kernel_args
                  (KRaise TypeError)
                  _ eq_refl ex_def_kernel_two_symbols) ex_buf_z).
  apply list_elem_of_here.
Defined.

Lemma def_kernel_binds_sizevars_witness :
  dict_get ex_s0
    (sizevars
       (def_kernel "kernel" [Some ex_buf_x; None; Some ex_buf_w] [ex_buf_y]
          "X, B, W, Y" ex_kernel_args).2) = Some "ks0".
Proof.
  destruct (def_kernel_binds_sizevars "kernel"
              [Some ex_buf_x; None; Some ex_buf_w] [ex_buf_y]
              "X, B, W, Y" ex_kernel_args
              "void kernel(float* X, float* W, float* Y)"
              _ ex_sorted_law ex_def_kernel ex_s0)
    as [[_ Hbound]|[Hnone _]].
  - exact Hbound.
  - exfalso. apply Hnone. exists ex_buf_w, (mkSymExpr [ex_s0]).
    split_and!; [left; apply list_elem_of_further, list_elem_of_further,
                   list_elem_of_here
                |apply list_elem_of_here|apply list_elem_of_here].
Defined.

Lemma dtype_acc_dtype_witness :
  dtype ex_buf_w = KReturn "float" ∧
  acc_dtype ex_buf_y = KRaise (NotImplementedError int32).
Proof.
  destruct (dtype_acc_dtype ex_buf_w) as (_ & _ & [[_ Hfloat]|[Hnot _]]).
  - destruct (dtype_acc_dtype ex_buf_y)
      as (Hsame & _ & [[Hin _]|[_ Hraise]]).
    + exfalso. repeat (apply elem_of_cons in Hin as [Hin|Hin];
                       [discriminate Hin|]).
      by apply elem_of_nil in Hin.
    + split; [exact Hfloat|by rewrite <- Hsame].
  - exfalso. apply Hnot. apply list_elem_of_further, list_elem_of_here.
Defined.

Lemma hash_key_injective_witness :
  category (mkCppTemplateCaller "gemm" "a-1") =
    category (mkCppTemplateCaller "gemm" "a-1") ∧
  bmreq_hash_key (mkCppTemplateCaller "gemm" "a-1") = "a-1".
Proof.
  apply (hash_key_injective (mkCppTemplateCaller "gemm" "a-1")
           (mkCppTemplateCaller "gemm" "a-1")); reflexivity.
Defined.
